(** * debuggee: the start-session orchestration of [src/index.ts]

    A shallow embedding of the MCP tool [debug/start_session]: the
    runner-to-command mapping, the discovery of the inspector WebSocket URL
    from the child's stderr, the CDP connection set-up, the session record
    and the module-wide [sessions] map.

    JavaScript strings are sequences of UTF-16 code units, so a string is a
    [list N] here; [js "..."] embeds a literal.  Objects that the program
    shares by reference (sessions, [Map]s, CDP clients) live in stores
    indexed by allocation order, and the [sessions] map holds references. *)

From Stdlib Require Import ZArith NArith Ascii String DecimalString DecimalZ DecimalPos.
From stdpp Require Import gmap list strings.

Local Open Scope Z_scope.

(** ** JavaScript strings *)

Abbreviation JSString := (list N).

Definition js (s : string) : JSString :=
  map N_of_ascii (list_ascii_of_string s).

(** [`${n}`] for an integral number [n] (pid, epoch milliseconds, exit
    code): the decimal numeral, with a leading minus sign when negative. *)
Definition dec (n : Z) : JSString :=
  js (NilZero.string_of_int (Z.to_int n)).

(** [s.substring(a, b)] for [a <= b]: both ends are clamped to the length. *)
Definition substring (a b : nat) (s : JSString) : JSString :=
  take (b - a)%nat (drop a s).

(** [hay.includes(needle)]. *)
Fixpoint includes (needle hay : JSString) : bool :=
  match hay with
  | [] => bool_decide (needle = [])
  | _ :: rest => bool_decide (take (length needle) hay = needle) || includes needle rest
  end.

(** ** The pattern [/ws:\/\/[^\s]+/]

    [\s] is the ECMAScript white-space and line-terminator class; without
    the [u] flag the pattern works on code units. *)
Definition is_space (c : N) : bool :=
  bool_decide (c ∈ [9; 10; 11; 12; 13; 32; 160; 5760; 8232; 8233; 8239; 8287;
                    12288; 65279]%N)
  || ((8192 <=? c) && (c <=? 8202))%N.

Definition ws_scheme : JSString := js "ws://".

Fixpoint strip_prefix (p s : JSString) : option JSString :=
  match p, s with
  | [], _ => Some s
  | a :: p', b :: s' => if bool_decide (a = b) then strip_prefix p' s' else None
  | _ :: _, [] => None
  end.

Fixpoint non_space_run (s : JSString) : JSString :=
  match s with
  | [] => []
  | c :: rest => if is_space c then [] else c :: non_space_run rest
  end.

(** The attempt anchored at the head of [s]: the literal scheme, then the
    longest run of non-space code units, which must not be empty. *)
Definition match_here (s : JSString) : option JSString :=
  match strip_prefix ws_scheme s with
  | Some tl =>
      match non_space_run tl with
      | [] => None
      | run => Some (ws_scheme ++ run)
      end
  | None => None
  end.

(** [s.match(/ws:\/\/[^\s]+/)]: the leftmost position where the attempt
    succeeds; [match[0]] is the matched text. *)
Fixpoint ws_match (s : JSString) : option JSString :=
  match s with
  | [] => None
  | _ :: rest =>
      match match_here s with
      | Some m => Some m
      | None => ws_match rest
      end
  end.

(** ** Thrown values and promises *)

(** What a [catch] clause or a rejection handler receives.  The program only
    looks at it through
    [error instanceof Error ? error.message : String(error)]. *)
Inductive Thrown :=
  | ErrorObj (message : JSString)
  | NonError (stringified : JSString).

Definition describe (error : Thrown) : JSString :=
  match error with
  | ErrorObj message => message
  | NonError stringified => stringified
  end.

Inductive Promise (A : Type) :=
  | Pending
  | Fulfilled (value : A)
  | Rejected (reason : Thrown).
Arguments Pending {A}.
Arguments Fulfilled {A} value.
Arguments Rejected {A} reason.

(** [resolve] and [reject] settle a pending promise and do nothing to a
    settled one. *)
Definition resolve {A} (v : A) (p : Promise A) : Promise A :=
  match p with Pending => Fulfilled v | _ => p end.

Definition reject {A} (e : Thrown) (p : Promise A) : Promise A :=
  match p with Pending => Rejected e | _ => p end.

(** ** Endpoint discovery: the promise built at lines 75-102 *)

Module Discovery.

(** What the event loop dispatches to the callbacks installed by the
    executor.  [StderrData] carries [chunk.toString()]; [ChildExit None]
    is an exit with [code === null], that is, termination by a signal;
    [Deadline] is the expiry of the 10000 ms timer. *)
Inductive Event :=
  | StderrData (chunk : JSString)
  | ChildError (error : Thrown)
  | ChildExit (code : option Z)
  | Deadline.

Inductive Listener := OnStderrData | OnChildError | OnChildExit.

#[global] Instance Listener_eq_dec : EqDecision Listener.
Proof. solve_decision. Defined.

(** The closure state of the executor: the promise itself, the [stderr]
    accumulator, whether the timer is still armed, and the listeners
    attached to the child. *)
Record State := mkState {
  promise : Promise JSString;
  stderr : JSString;
  timeout : bool;
  listeners : list Listener
}.

Definition timeout_error : Thrown :=
  ErrorObj (js "Timeout waiting for inspector WebSocket URL").

Definition exit_error (code : Z) : Thrown :=
  ErrorObj (js "Process exited with code " ++ dec code
            ++ js " before inspector URL was found").

(** State after the executor has run: timer armed, buffer empty, the three
    listeners attached with [.on]. *)
Definition init : State :=
  {| promise := Pending; stderr := []; timeout := true;
     listeners := [OnStderrData; OnChildError; OnChildExit] |}.

Definition clearTimeout (d : State) : State :=
  {| promise := promise d; stderr := stderr d; timeout := false;
     listeners := listeners d |}.

Definition settle (f : Promise JSString -> Promise JSString) (d : State) : State :=
  {| promise := f (promise d); stderr := stderr d; timeout := timeout d;
     listeners := listeners d |}.

(** The timer callback; once run, the one-shot timer is spent. *)
Definition on_deadline (d : State) : State :=
  settle (reject timeout_error) (clearTimeout d).

Definition on_data (chunk : JSString) (d : State) : State :=
  let d1 := {| promise := promise d; stderr := stderr d ++ chunk;
               timeout := timeout d; listeners := listeners d |} in
  match ws_match (stderr d1) with
  | Some m => settle (resolve m) (clearTimeout d1)
  | None => d1
  end.

Definition on_error (error : Thrown) (d : State) : State :=
  settle (reject error) (clearTimeout d).

Definition on_exit (code : option Z) (d : State) : State :=
  match code with
  | Some c => settle (reject (exit_error c)) (clearTimeout d)
  | None => d
  end.

Definition attached (l : Listener) (d : State) : bool :=
  bool_decide (l ∈ listeners d).

(** Whether dispatching [ev] in state [d] runs a callback of the
    executor. *)
Definition fires (ev : Event) (d : State) : bool :=
  match ev with
  | StderrData _ => attached OnStderrData d
  | ChildError _ => attached OnChildError d
  | ChildExit _ => attached OnChildExit d
  | Deadline => timeout d
  end.

Definition step (d : State) (ev : Event) : State :=
  if fires ev d then
    match ev with
    | StderrData chunk => on_data chunk d
    | ChildError error => on_error error d
    | ChildExit code => on_exit code d
    | Deadline => on_deadline d
    end
  else d.

Definition run (evs : list Event) (d : State) : State := foldl step d evs.

(** The timer is armed when the executor runs and nothing but the
    callbacks above disarms it, so the deadline is dispatched after
    whatever the environment lists: [await] sees the promise after
    [evs ++ [Deadline]].  (A [Deadline] listed earlier in [evs] marks
    where the expiry falls among the other events.) *)
Definition awaited (evs : list Event) : Promise JSString :=
  promise (run (evs ++ [Deadline]) init).

(** The text the [data] callbacks have accumulated. *)
Definition output (evs : list Event) : JSString :=
  stderr (run evs init).

(** *** Vocabulary for the properties below *)

(** All the text written to stderr by the events of [evs]. *)
Fixpoint written (evs : list Event) : JSString :=
  match evs with
  | [] => []
  | StderrData chunk :: rest => chunk ++ written rest
  | _ :: rest => written rest
  end.

(** Events that by themselves end nothing: output, and an exit without a
    code. *)
Definition silent (ev : Event) : bool :=
  match ev with
  | StderrData _ | ChildExit None => true
  | _ => false
  end.

(** A stretch of events with no endpoint in the text written, no deadline,
    no error and no exit with a code. *)
Definition quiet (evs : list Event) : Prop :=
  forallb silent evs = true /\ ws_match (written evs) = None.

Definition is_data (ev : Event) : bool :=
  match ev with StderrData _ => true | _ => false end.

(** What holds of every state the callbacks can produce: the three
    listeners stay attached, and the timer is armed exactly while the
    promise is pending. *)
Definition sound (d : State) : Prop :=
  listeners d = [OnStderrData; OnChildError; OnChildExit]
  /\ (timeout d = true <-> promise d = Pending).

End Discovery.

(** ** The tool's input and the runner-to-command mapping (lines 28-68) *)

Inductive Runner := node | tsx | ts_node.

Record StartSessionArgs := {
  entry : JSString;
  args : list JSString;
  cwd : option JSString;
  inspectBrk : bool;
  runner : Runner
}.

Definition inspect_flag (a : StartSessionArgs) : JSString :=
  if inspectBrk a then js "--inspect-brk" else js "--inspect".

Definition nodeCmd (a : StartSessionArgs) : JSString :=
  match runner a with
  | tsx => js "tsx"
  | ts_node => js "node"
  | node => js "node"
  end.

Definition nodeArgs (a : StartSessionArgs) : list JSString :=
  match runner a with
  | tsx => inspect_flag a :: entry a :: args a
  | ts_node =>
      inspect_flag a :: js "-r" :: js "ts-node/register" :: entry a :: args a
  | node => inspect_flag a :: entry a :: args a
  end.

(** ** The environment of one call *)

(** The handle [spawn] returns: its [pid] (absent when the operating system
    could not start the program) and what the event loop will dispatch to
    the discovery callbacks. *)
Record Child := {
  pid : option Z;
  dispatched : list Discovery.Event
}.

(** Everything a call observes from outside the program.  [Math_random] is
    the draw of [Math.random()], a double in [0, 1), given by the digits of
    its fraction in radix 36 (none for zero).  [spawn] answers for
    [spawn(cmd, args, {cwd, stdio})], [CDP] for [CDP({target})], and the two
    [enable] fields for the commands sent on the fresh connection; [None]
    is success. *)
Record Env := {
  process_pid : Z;
  process_cwd : JSString;
  Date_now : Z;
  Math_random : list N;
  spawn : JSString -> list JSString -> JSString -> Thrown + Child;
  CDP : JSString -> option Thrown;
  Debugger_enable : option Thrown;
  Runtime_enable : option Thrown
}.

(** [cwd || process.cwd()]: an absent or empty [cwd] is falsy. *)
Definition spawn_cwd (env : Env) (a : StartSessionArgs) : JSString :=
  match cwd a with
  | Some (c :: rest) => c :: rest
  | _ => process_cwd env
  end.

(** ** [generateSessionId] (lines 36-38) *)

Definition digit36 (d : N) : N :=
  let k := (d mod 36)%N in
  if (k <? 10)%N then (48 + k)%N else (87 + k)%N.

(** [x.toString(36)] for [x] in [0, 1): never in exponent form. *)
Definition toString36 (fraction : list N) : JSString :=
  match fraction with
  | [] => js "0"
  | _ => js "0." ++ map digit36 fraction
  end.

Definition random_suffix (env : Env) : JSString :=
  substring 2 9 (toString36 (Math_random env)).

Definition generateSessionId (env : Env) : JSString :=
  dec (process_pid env) ++ js "-" ++ dec (Date_now env) ++ js "-"
  ++ random_suffix env.

(** ** What the tool returns *)

(** The object handed to [JSON.stringify(_, null, 2)] on success. *)
Record SessionInfo := {
  info_sessionId : JSString;
  info_wsUrl : JSString;
  info_pid : option Z;
  info_runner : Runner;
  info_entry : JSString
}.

(** The [text] of a content item [{type: "text", text}]: either the JSON
    rendering of the object above, kept as the object it renders, or a plain
    message. *)
Inductive Text :=
  | Stringified (info : SessionInfo)
  | Message (text : JSString).

(** The success result has no [isError] property; that reads as [false]. *)
Record ToolResult := {
  isError : bool;
  content : list Text
}.

Definition failure (error : Thrown) : ToolResult :=
  {| isError := true;
     content := [Message (js "Failed to start debug session: " ++ describe error)] |}.

Section Orchestrator.

(** The payload of a [Debugger.paused] notification: the [params] object
    of the protocol message.  The program stores it and never looks
    inside. *)
Context {PausedEvent : Type}.

(** *** Objects and the module state *)

Record Breakpoint := {
  bp_id : JSString;
  bp_file : JSString;
  bp_line : Z;
  bp_column : option Z
}.

(** The [Session] type of lines 7-14.  [client] and [breakpoints] are
    references into the stores below; an absent [lastPaused] is [None]. *)
Record Session := {
  id : JSString;
  wsUrl : JSString;
  client : nat;
  process : option Child;
  breakpoints : nat;
  lastPaused : option PausedEvent
}.

(** The two arrow functions of lines 119-125, closed over [session]. *)
Inductive Callback :=
  | StoreLastPaused (session : nat)
  | ClearLastPaused (session : nat).

Inductive Subscription := OnDebuggerPaused | OnDebuggerResumed.

(** A CDP client: the endpoint it is connected to, whether the connection
    is open, and the callbacks registered with [client.on]. *)
Record Client := {
  target : JSString;
  open : bool;
  handlers : list (Subscription * Callback)
}.

(** [sessions] is the module-wide map of line 16; the other three fields
    are the stores of the objects created so far. *)
Record World := {
  sessions : gmap JSString nat;
  session_objs : list Session;
  map_objs : list (gmap JSString Breakpoint);
  clients : list Client
}.

Definition empty_world : World :=
  {| sessions := ∅; session_objs := []; map_objs := []; clients := [] |}.

(** *** Asynchronous code: state, exceptions, and awaits that may not resume *)

Definition Async (A : Type) : Type := World -> option (World * (Thrown + A)).

Definition ret {A} (a : A) : Async A := fun w => Some (w, inr a).

Definition throw {A} (e : Thrown) : Async A := fun w => Some (w, inl e).

Definition bind {A B} (m : Async A) (k : A -> Async B) : Async B :=
  fun w =>
    match m w with
    | Some (w', inr a) => k a w'
    | Some (w', inl e) => Some (w', inl e)
    | None => None
    end.

Notation "'let*' x := m 'in' k" := (bind m (fun x => k))
  (at level 10, x name, m at level 100, k at level 200).

(** [try { m } catch (error) { h error }]. *)
Definition try_catch {A} (m : Async A) (h : Thrown -> Async A) : Async A :=
  fun w =>
    match m w with
    | Some (w', inl e) => h e w'
    | r => r
    end.

(** [await p]: a promise that is never settled never resumes the caller. *)
Definition await {A} (p : Promise A) : Async A :=
  match p with
  | Pending => fun _ => None
  | Fulfilled v => ret v
  | Rejected e => throw e
  end.

Definition modify (f : World -> World) : Async unit := fun w => Some (f w, inr tt).

(** *** The steps of the handler that touch the stores *)

Definition call_spawn (env : Env) (a : StartSessionArgs) : Async Child :=
  match spawn env (nodeCmd a) (nodeArgs a) (spawn_cwd env a) with
  | inl e => throw e
  | inr child => ret child
  end.

(** [await CDP({target: wsUrl})]: on success a new client object, with an
    open connection and no listeners of this program yet. *)
Definition call_CDP (env : Env) (url : JSString) : Async nat :=
  match CDP env url with
  | Some e => throw e
  | None =>
      fun w =>
        Some ({| sessions := sessions w; session_objs := session_objs w;
                 map_objs := map_objs w;
                 clients := clients w
                            ++ [{| target := url; open := true; handlers := [] |}] |},
              inr (length (clients w)))
  end.

Definition call_enable (outcome : option Thrown) : Async unit :=
  match outcome with
  | Some e => throw e
  | None => ret tt
  end.

(** [new Map()]. *)
Definition new_Map : Async nat :=
  fun w =>
    Some ({| sessions := sessions w; session_objs := session_objs w;
             map_objs := map_objs w ++ [∅]; clients := clients w |},
          inr (length (map_objs w))).

(** The object literal of lines 111-117. *)
Definition new_session (s : Session) : Async nat :=
  fun w =>
    Some ({| sessions := sessions w; session_objs := session_objs w ++ [s];
             map_objs := map_objs w; clients := clients w |},
          inr (length (session_objs w))).

Definition add_handler (h : Subscription * Callback) (c : Client) : Client :=
  {| target := target c; open := open c; handlers := handlers c ++ [h] |}.

(** [client.on(name, callback)]. *)
Definition client_on (c : nat) (sub : Subscription) (cb : Callback) : Async unit :=
  modify (fun w =>
    {| sessions := sessions w; session_objs := session_objs w;
       map_objs := map_objs w;
       clients := alter (add_handler (sub, cb)) c (clients w) |}).

(** [sessions.set(key, session)]. *)
Definition sessions_set (key : JSString) (s : nat) : Async unit :=
  modify (fun w =>
    {| sessions := <[key := s]> (sessions w); session_objs := session_objs w;
       map_objs := map_objs w; clients := clients w |}).

(** *** The handler of [debug/start_session] (lines 46-155) *)

Definition start_session (env : Env) (a : StartSessionArgs) : Async ToolResult :=
  try_catch
    (let* child := call_spawn env a in
     let* url := await (Discovery.awaited (dispatched child)) in
     let* c := call_CDP env url in
     let* _ := call_enable (Debugger_enable env) in
     let* _ := call_enable (Runtime_enable env) in
     let sessionId := generateSessionId env in
     let* m := new_Map in
     let* s := new_session {| id := sessionId; wsUrl := url; client := c;
                              process := Some child; breakpoints := m;
                              lastPaused := None |} in
     let* _ := client_on c OnDebuggerPaused (StoreLastPaused s) in
     let* _ := client_on c OnDebuggerResumed (ClearLastPaused s) in
     let* _ := sessions_set sessionId s in
     ret {| isError := false;
            content := [Stringified
                          {| info_sessionId := sessionId; info_wsUrl := url;
                             info_pid := pid child; info_runner := runner a;
                             info_entry := entry a |}] |})
    (fun error => ret (failure error)).

(** *** Notifications arriving on a CDP connection *)

Inductive Notification :=
  | DebuggerPaused (event : PausedEvent)
  | DebuggerResumed
  | OtherNotification (method : JSString).

Definition subscribed (sub : Subscription) (n : Notification) : bool :=
  match sub, n with
  | OnDebuggerPaused, DebuggerPaused _ => true
  | OnDebuggerResumed, DebuggerResumed => true
  | _, _ => false
  end.

Definition set_lastPaused (v : option PausedEvent) (s : Session) : Session :=
  {| id := id s; wsUrl := wsUrl s; client := client s; process := process s;
     breakpoints := breakpoints s; lastPaused := v |}.

Definition assign_lastPaused (s : nat) (v : option PausedEvent) (w : World) : World :=
  {| sessions := sessions w;
     session_objs := alter (set_lastPaused v) s (session_objs w);
     map_objs := map_objs w; clients := clients w |}.

(** Running a callback with the notification's payload as its argument. *)
Definition invoke (cb : Callback) (n : Notification) (w : World) : World :=
  match cb with
  | StoreLastPaused s =>
      assign_lastPaused s
        (match n with DebuggerPaused event => Some event | _ => None end) w
  | ClearLastPaused s => assign_lastPaused s None w
  end.

(** The client emits [n]: the callbacks registered for its name run in
    registration order. *)
Definition emit (c : nat) (n : Notification) (w : World) : World :=
  match clients w !! c with
  | Some cl =>
      foldl (fun w h => if subscribed (fst h) n then invoke (snd h) n w else w)
            w (handlers cl)
  | None => w
  end.

(** *** Histories of the server

    The handler touches the stores only in synchronous stretches (the
    continuation of [await CDP], and the last one from [generateSessionId]
    to [sessions.set]), and a session becomes reachable by notifications
    only in the last one, so a call is one transition here. *)
Inductive Action :=
  | Call (env : Env) (a : StartSessionArgs)
  | Notify (c : nat) (n : Notification).

Definition act (w : World) (x : Action) : World :=
  match x with
  | Call env a =>
      match start_session env a w with
      | Some (w', _) => w'
      | None => w
      end
  | Notify c n => emit c n w
  end.

Definition history (xs : list Action) (w : World) : World := foldl act w xs.

(** *** Vocabulary for the properties below *)

(** The notifications that [xs] delivers on client [c], in order. *)
Fixpoint delivered (c : nat) (xs : list Action) : list Notification :=
  match xs with
  | [] => []
  | Notify c' n :: rest =>
      if bool_decide (c' = c) then n :: delivered c rest else delivered c rest
  | Call _ _ :: rest => delivered c rest
  end.

Definition pause_or_resume (n : Notification) : bool :=
  match n with
  | DebuggerPaused _ | DebuggerResumed => true
  | OtherNotification _ => false
  end.

(** The payload of the last pause-or-resume notification of [ns] when that
    one is a pause. *)
Definition last_pause (ns : list Notification) : option PausedEvent :=
  match last (filter (fun n => pause_or_resume n = true) ns) with
  | Some (DebuggerPaused event) => Some event
  | _ => None
  end.

(** The two registrations a successful call makes for session [s]. *)
Definition callbacks_of (s : nat) : list (Subscription * Callback) :=
  [(OnDebuggerPaused, StoreLastPaused s); (OnDebuggerResumed, ClearLastPaused s)].

Definition session_of (cb : Callback) : nat :=
  match cb with StoreLastPaused s | ClearLastPaused s => s end.

(** References are allocated: every session's map and client exist, its
    client carries exactly its two callbacks, every callback belongs to a
    session of that client, and the registry points into the store. *)
Definition consistent (w : World) : Prop :=
  (forall s sess, session_objs w !! s = Some sess ->
     (breakpoints sess < length (map_objs w))%nat
     /\ exists cl, clients w !! client sess = Some cl
                  /\ handlers cl = callbacks_of s)
  /\ (forall c cl h, clients w !! c = Some cl -> h ∈ handlers cl ->
        exists sess, session_objs w !! session_of (snd h) = Some sess
                     /\ client sess = c)
  /\ (forall k s, sessions w !! k = Some s -> (s < length (session_objs w))%nat).

(** Serving a run of calls one after the other; the results in order. *)
Fixpoint serve (cs : list (Env * StartSessionArgs)) (w : World) : list ToolResult :=
  match cs with
  | [] => []
  | (env, a) :: rest =>
      match start_session env a w with
      | Some (w', inr r) => r :: serve rest w'
      | Some (w', inl _) => serve rest w'
      | None => []
      end
  end.

End Orchestrator.

(** ** The stages of a call, as the environment decides them *)

Definition spawned (env : Env) (a : StartSessionArgs) : Thrown + Child :=
  spawn env (nodeCmd a) (nodeArgs a) (spawn_cwd env a).

(** The connection to [url] is up and one of the two [enable] commands is
    refused with [e]. *)
Definition EnableFailure (env : Env) (e : Thrown) : Prop :=
  Debugger_enable env = Some e
  \/ (Debugger_enable env = None /\ Runtime_enable env = Some e).

(** Some stage fails with [e]: process spawn, endpoint discovery, connection
    establishment, or domain enabling, each after the stages before it
    succeeded. *)
Inductive StageFailure (env : Env) (a : StartSessionArgs) : Thrown -> Prop :=
  | spawn_failure e :
      spawned env a = inl e -> StageFailure env a e
  | discovery_failure child e :
      spawned env a = inr child ->
      Discovery.awaited (dispatched child) = Rejected e ->
      StageFailure env a e
  | connection_failure child url e :
      spawned env a = inr child ->
      Discovery.awaited (dispatched child) = Fulfilled url ->
      CDP env url = Some e ->
      StageFailure env a e
  | enable_failure child url e :
      spawned env a = inr child ->
      Discovery.awaited (dispatched child) = Fulfilled url ->
      CDP env url = None ->
      EnableFailure env e ->
      StageFailure env a e.

(** Every stage succeeds, with process handle [child] and endpoint [url]. *)
Definition Ready (env : Env) (a : StartSessionArgs) (child : Child) (url : JSString) : Prop :=
  spawned env a = inr child
  /\ Discovery.awaited (dispatched child) = Fulfilled url
  /\ CDP env url = None
  /\ Debugger_enable env = None
  /\ Runtime_enable env = None.

(** The identifiers reported by the successful results of a run of calls. *)
Definition reported_id (r : ToolResult) : list JSString :=
  match isError r, content r with
  | false, [Stringified info] => [info_sessionId info]
  | _, _ => []
  end.


(** ** Scenarios used below *)

(** What the inspector writes to stderr when it starts listening. *)
Definition inspector_banner : JSString :=
  js "Debugger listening on ws://127.0.0.1:9229/0f2c936f-b1cd-4ac9-aab3-f63b0f33d55e
For help, see: https://nodejs.org/en/docs/inspector
".

Definition inspector_url : JSString :=
  js "ws://127.0.0.1:9229/0f2c936f-b1cd-4ac9-aab3-f63b0f33d55e".

Definition script_args : StartSessionArgs :=
  {| entry := js "script.js"; args := []; cwd := None; inspectBrk := true;
     runner := node |}.

Definition listening_child : Child :=
  {| pid := Some 31337; dispatched := [Discovery.StderrData inspector_banner] |}.

(** A machine on which every stage succeeds; the clock and the random draw
    are left open. *)
Definition healthy_env (now : Z) (fraction : list N) : Env :=
  {| process_pid := 4242; process_cwd := js "/srv/debuggee"; Date_now := now;
     Math_random := fraction;
     spawn := fun _ _ _ => inr listening_child;
     CDP := fun _ => None;
     Debugger_enable := None; Runtime_enable := None |}.

(** The endpoint answers, but refuses [Debugger.enable]. *)
Definition refusing_env : Env :=
  {| process_pid := 4242; process_cwd := js "/srv/debuggee";
     Date_now := 1700000000123; Math_random := [10; 11; 3; 35; 0; 7; 20; 1; 9]%N;
     spawn := fun _ _ _ => inr listening_child;
     CDP := fun _ => None;
     Debugger_enable := Some (ErrorObj (js "'Debugger.enable' wasn't found"));
     Runtime_enable := None |}.

(** The runner is not installed: [spawn] returns a handle without a pid,
    which then emits [error]. *)
Definition missing_runner_env : Env :=
  {| process_pid := 4242; process_cwd := js "/srv/debuggee";
     Date_now := 1700000000123; Math_random := [10; 11; 3; 35; 0; 7; 20; 1; 9]%N;
     spawn := fun _ _ _ =>
       inr {| pid := None;
              dispatched := [Discovery.ChildError (ErrorObj (js "spawn tsx ENOENT"))] |};
     CDP := fun _ => None;
     Debugger_enable := None; Runtime_enable := None |}.

(** ** Vocabulary for the further properties *)

(** What may follow a match: nothing, or a white-space code unit. *)
Definition tail_is_cut (post : JSString) : Prop :=
  match post with
  | [] => True
  | c :: _ => is_space c = true
  end.

(** The call gets as far as a connection. *)
Definition connects (env : Env) (a : StartSessionArgs) : bool :=
  match spawned env a with
  | inr child =>
      match Discovery.awaited (dispatched child) with
      | Fulfilled url => match CDP env url with None => true | Some _ => false end
      | _ => false
      end
  | inl _ => false
  end.

(** Every stage of the call succeeds. *)
Definition succeeds (env : Env) (a : StartSessionArgs) : bool :=
  connects env a
  && match Debugger_enable env, Runtime_enable env with
     | None, None => true
     | _, _ => false
     end.

Section OrchestratorVocabulary.
Context {PausedEvent : Type}.

(** How many calls of [xs] satisfy [f]. *)
Fixpoint calls_where (f : Env -> StartSessionArgs -> bool)
    (xs : list (@Action PausedEvent)) : nat :=
  match xs with
  | [] => 0
  | Call env a :: rest => (if f env a then 1 else 0) + calls_where f rest
  | Notify _ _ :: rest => calls_where f rest
  end.

(** Sessions and maps are allocated in step, no map has an entry, no
    connection is closed, and the registry leads to sessions that carry
    their key. *)
Definition tidy (w : @World PausedEvent) : Prop :=
  length (map_objs w) = length (session_objs w)
  /\ (forall s sess, session_objs w !! s = Some sess -> breakpoints sess = s)
  /\ (forall m bps, map_objs w !! m = Some bps -> bps = ∅)
  /\ (forall c cl, clients w !! c = Some cl -> open cl = true)
  /\ (forall k s, sessions w !! k = Some s ->
        exists sess, session_objs w !! s = Some sess /\ id sess = k).

(** The session whose callbacks client [c] carries, if any. *)
Definition owner (w : @World PausedEvent) (c : nat) : option nat :=
  match clients w !! c with
  | Some cl =>
      match handlers cl with
      | h :: _ => Some (session_of (snd h))
      | [] => None
      end
  | None => None
  end.
End OrchestratorVocabulary.

(** ** The test helper [testStartSession] (tests/debugge.test.ts, lines 92-182) *)

Module TestHelper.

(** The helper's parameter object; an absent property is [None]. *)
Record Params := {
  p_entry : JSString;
  p_runner : option JSString;
  p_inspectBrk : option bool;
  p_args : option (list JSString);
  p_cwd : option JSString
}.

(** The destructuring defaults of line 105. *)
Definition runner_of (p : Params) : JSString := default (js "node") (p_runner p).
Definition inspectBrk_of (p : Params) : bool := default true (p_inspectBrk p).
Definition args_of (p : Params) : list JSString := default [] (p_args p).

Definition flag_of (p : Params) : JSString :=
  if inspectBrk_of p then js "--inspect-brk" else js "--inspect".

(** The [switch] of lines 110-127, on the runner string. *)
Definition nodeCmd (p : Params) : JSString :=
  if bool_decide (runner_of p = js "tsx") then js "tsx"
  else if bool_decide (runner_of p = js "ts-node") then js "node"
  else js "node".

Definition nodeArgs (p : Params) : list JSString :=
  if bool_decide (runner_of p = js "tsx") then
    flag_of p :: p_entry p :: args_of p
  else if bool_decide (runner_of p = js "ts-node") then
    flag_of p :: js "-r" :: js "ts-node/register" :: p_entry p :: args_of p
  else
    flag_of p :: p_entry p :: args_of p.

Definition spawn_cwd (env : Env) (p : Params) : JSString :=
  match p_cwd p with
  | Some (c :: rest) => c :: rest
  | _ => process_cwd env
  end.

(** What the event loop dispatches to the helper's callbacks: those of the
    tool, and [data] on the child's stdout. *)
Inductive Event :=
  | StderrData (chunk : JSString)
  | StdoutData (chunk : JSString)
  | ChildError (error : Thrown)
  | ChildExit (code : option Z)
  | Deadline.

(** The helper's child handle. *)
Record Child := {
  pid : option Z;
  dispatched : list Event
}.

(** The promise, buffer and timer as in the tool; whether [child.kill()]
    was called; and the argument pairs of the [console.log] calls. *)
Record State := {
  core : Discovery.State;
  killed : bool;
  console : list (JSString * JSString)
}.

Definition init : State :=
  {| core := Discovery.init; killed := false; console := [] |}.

Definition step (st : State) (ev : Event) : State :=
  match ev with
  | StderrData chunk =>
      {| core := Discovery.on_data chunk (core st); killed := killed st;
         console := console st ++ [(js "Stderr:", chunk)] |}
  | StdoutData chunk =>
      {| core := core st; killed := killed st;
         console := console st ++ [(js "Stdout:", chunk)] |}
  | ChildError error =>
      {| core := Discovery.on_error error (core st); killed := killed st;
         console := console st |}
  | ChildExit code =>
      {| core := Discovery.on_exit code (core st); killed := killed st;
         console := console st |}
  | Deadline =>
      if Discovery.timeout (core st) then
        {| core := Discovery.on_deadline (core st); killed := true;
           console := console st |}
      else st
  end.

Definition run (evs : list Event) (st : State) : State := foldl step st evs.

(** The state when the deadline has been dispatched after [evs]. *)
Definition final (evs : list Event) : State := run (evs ++ [Deadline]) init.

Definition awaited (evs : list Event) : Promise JSString :=
  Discovery.promise (core (final evs)).

Record Result := {
  r_sessionId : JSString;
  r_wsUrl : JSString;
  r_pid : option Z;
  r_runner : JSString;
  r_entry : JSString
}.

(** [testStartSession]: given the module's [activeProcesses], the list
    afterwards and what the returned promise settles with ([None]: never).
    What the call does to the child and the console meanwhile is in
    [final (dispatched child)]. *)
Definition testStartSession (env : Env)
    (spawn : JSString -> list JSString -> JSString -> Thrown + Child)
    (p : Params) (activeProcesses : list Child)
    : option (list Child * (Thrown + Result)) :=
  match spawn (nodeCmd p) (nodeArgs p) (spawn_cwd env p) with
  | inl e => Some (activeProcesses, inl e)
  | inr child =>
      match awaited (dispatched child) with
      | Pending => None
      | Rejected e => Some (activeProcesses ++ [child], inl e)
      | Fulfilled url =>
          Some (activeProcesses ++ [child],
                inr {| r_sessionId := generateSessionId env; r_wsUrl := url;
                       r_pid := pid child; r_runner := runner_of p;
                       r_entry := p_entry p |})
      end
  end.

(** *** Vocabulary *)

(** The event as the tool's discovery sees it; stdout is not listened to
    there. *)
Definition to_tool (ev : Event) : option Discovery.Event :=
  match ev with
  | StderrData chunk => Some (Discovery.StderrData chunk)
  | StdoutData _ => None
  | ChildError e => Some (Discovery.ChildError e)
  | ChildExit code => Some (Discovery.ChildExit code)
  | Deadline => Some Discovery.Deadline
  end.

Definition logged (ev : Event) : option (JSString * JSString) :=
  match ev with
  | StderrData chunk => Some (js "Stderr:", chunk)
  | StdoutData chunk => Some (js "Stdout:", chunk)
  | _ => None
  end.

(** The spelling of a runner in the tool's schema. *)
Definition runner_name (r : Runner) : JSString :=
  match r with
  | node => js "node"
  | tsx => js "tsx"
  | ts_node => js "ts-node"
  end.

(** The tool's arguments that correspond to the helper's parameters, for
    runner [r]. *)
Definition as_args (p : Params) (r : Runner) : StartSessionArgs :=
  {| entry := p_entry p; args := args_of p; cwd := p_cwd p;
     inspectBrk := inspectBrk_of p; runner := r |}.

End TestHelper.


(** * Properties *)

(** ** Strings and identifiers *)

Example ws_match_line :
  ws_match (js "Debugger listening on ws://127.0.0.1:9229/0f2c-ab
For help, see: https://nodejs.org/en/docs/inspector")
  = Some (js "ws://127.0.0.1:9229/0f2c-ab").
Proof. vm_compute. reflexivity. Qed.

Example ws_match_needs_one : ws_match (js "ws:// ws://") = None.
Proof. vm_compute. reflexivity. Qed.

Example generateSessionId_sample :
  generateSessionId
    {| process_pid := 4242; process_cwd := js "/"; Date_now := 1700000000123;
       Math_random := [10; 11; 3; 35; 0; 7; 20; 1; 9]%N;
       spawn := fun _ _ _ => inl (NonError []); CDP := fun _ => None;
       Debugger_enable := None; Runtime_enable := None |}
  = js "4242-1700000000123-ab3z07k".
Proof. vm_compute. reflexivity. Qed.

Lemma js_inj s t : js s = js t -> s = t.
Proof.
  unfold js. revert t. induction s as [|a s IH]; intros [|b t]; simpl; try discriminate; auto.
  intros H. injection H as Hab Hst. f_equal; [|by apply IH].
  rewrite <- (ascii_N_embedding a), <- (ascii_N_embedding b). by rewrite Hab.
Qed.

Lemma js_app s t : js (s ++ t)%string = js s ++ js t.
Proof. unfold js. induction s as [|a s IH]; simpl; [done|]. by rewrite IH. Qed.

Lemma to_int_printable z :
  NilZero.int_of_string (NilZero.string_of_int (Z.to_int z)) = Some (Z.to_int z).
Proof.
  apply NilZero.isi; destruct z as [|p|p]; simpl; try discriminate;
    intros [= Hp]; by apply (Unsigned.to_uint_nonnil p).
Qed.

Lemma dec_inj i j : dec i = dec j -> i = j.
Proof.
  unfold dec. intros H%js_inj. apply to_int_inj.
  apply (f_equal NilZero.int_of_string) in H.
  rewrite !to_int_printable in H. congruence.
Qed.

(** Cutting at the last occurrence of a separator. *)
Lemma split_at_last_sep (x : N) (a b s t : JSString) :
  x ∉ s -> x ∉ t -> a ++ x :: s = b ++ x :: t -> a = b /\ s = t.
Proof.
  revert b. induction a as [|c a IH]; intros [|d b] Hs Ht H; simpl in H.
  - by injection H.
  - injection H as -> ->. exfalso. apply Hs. apply elem_of_app. right. left.
  - injection H as -> <-. exfalso. apply Ht. apply elem_of_app. right. left.
  - injection H as -> H. destruct (IH b Hs Ht H) as [-> ->]. done.
Qed.

Lemma digit36_not_dash d : digit36 d ≠ 45%N.
Proof.
  unfold digit36. cbv zeta. generalize (d mod 36)%N. intros k.
  destruct (N.ltb_spec k 10); lia.
Qed.

Lemma random_suffix_no_dash env : 45%N ∉ random_suffix env.
Proof.
  unfold random_suffix, substring, toString36.
  destruct (Math_random env) as [|d ds]; [vm_compute; by inversion 1|].
  change (js "0." ++ map digit36 (d :: ds))
    with (48 :: 46 :: map digit36 (d :: ds))%N.
  intros (i & Hin & _)%elem_of_take.
  apply list_elem_of_lookup_2, list_elem_of_In, in_map_iff in Hin as (k & Hk & _).
  by apply digit36_not_dash in Hk.
Qed.

Lemma generateSessionId_eq env1 env2 :
  process_pid env1 = process_pid env2 ->
  generateSessionId env1 = generateSessionId env2
  <-> Date_now env1 = Date_now env2 /\ random_suffix env1 = random_suffix env2.
Proof.
  intros Hpid. unfold generateSessionId. rewrite Hpid. split.
  - intros H. apply app_inv_head in H. change (js "-") with [45%N] in H.
    simpl in H. injection H as H.
    apply split_at_last_sep in H as [H1 H2]; auto using random_suffix_no_dash.
    split; [by apply dec_inj | done].
  - by intros [-> ->].
Qed.

(** ** The pattern *)

Lemma strip_prefix_app p s t r :
  strip_prefix p s = Some r -> strip_prefix p (s ++ t) = Some (r ++ t).
Proof.
  revert s. induction p as [|a p IH]; intros s; simpl.
  - by intros [= ->].
  - destruct s as [|b s]; [done|]. simpl. case_bool_decide; [apply IH | done].
Qed.

Lemma non_space_run_app s t :
  non_space_run s ≠ [] -> non_space_run (s ++ t) ≠ [].
Proof. destruct s as [|c s]; [done|]. simpl. by destruct (is_space c). Qed.

Lemma match_here_app s t :
  match_here (s ++ t) = None -> match_here s = None.
Proof.
  unfold match_here. destruct (strip_prefix ws_scheme s) as [r|] eqn:Hs; [|done].
  rewrite (strip_prefix_app _ _ t _ Hs).
  destruct (non_space_run r) as [|c run] eqn:Hr; [done|].
  assert (non_space_run (r ++ t) ≠ []) as Hne
    by (apply non_space_run_app; by rewrite Hr).
  by destruct (non_space_run (r ++ t)).
Qed.

(** A text without an endpoint has no endpoint in any of its prefixes. *)
Lemma ws_match_prefix s t : ws_match (s ++ t) = None -> ws_match s = None.
Proof.
  induction s as [|c s IH]; [done|]. simpl.
  change (c :: s ++ t) with ((c :: s) ++ t).
  destruct (match_here ((c :: s) ++ t)) eqn:Hm; [done|].
  rewrite (match_here_app _ _ Hm). apply IH.
Qed.

(** ** Endpoint discovery *)

Module DiscoveryFacts.
Import Discovery.

Lemma sound_init : sound init.
Proof. by split. Qed.

Lemma sound_fires d ev :
  sound d -> fires ev d = match ev with Deadline => timeout d | _ => true end.
Proof. intros [Hl _]. destruct ev; simpl; unfold attached; by rewrite ?Hl. Qed.

Lemma sound_step d ev : sound d -> sound (step d ev).
Proof.
  intros Hd. unfold step. rewrite (sound_fires _ _ Hd).
  destruct Hd as [Hl [Ht1 Ht2]].
  destruct ev as [chunk|e|[c|]|];
    unfold sound, on_data, on_error, on_exit, on_deadline; simpl;
    try destruct (ws_match _); try destruct (timeout d) eqn:Ht; simpl;
    (split; [done|]); try (split; assumption);
    destruct (promise d); simpl; split; intros;
    first [congruence | rewrite Ht; auto].
Qed.

Lemma sound_run evs d : sound d -> sound (run evs d).
Proof.
  revert d. induction evs as [|ev evs IH]; intros d Hd; [done|].
  apply IH. by apply sound_step.
Qed.

(** A settled promise keeps its result whatever is dispatched later. *)
Lemma step_settled d ev : promise d ≠ Pending -> promise (step d ev) = promise d.
Proof.
  intros Hp. unfold step. destruct (fires ev d); [|done].
  destruct ev as [chunk|e|[c|]|]; simpl; try done;
    unfold on_data; simpl; try destruct (ws_match _); simpl;
    by destruct (promise d).
Qed.

Lemma run_settled evs d : promise d ≠ Pending -> promise (run evs d) = promise d.
Proof.
  revert d. induction evs as [|ev evs IH]; intros d Hp; [done|]. simpl.
  rewrite IH; rewrite step_settled; done.
Qed.

Lemma run_app evs evs' d : run (evs ++ evs') d = run evs' (run evs d).
Proof. apply foldl_app. Qed.

(** The awaited promise is always settled: the handler resumes. *)
Lemma awaited_settled evs : awaited evs ≠ Pending.
Proof.
  unfold awaited. rewrite run_app. simpl.
  pose proof (sound_run evs init sound_init) as Hs.
  unfold step. rewrite (sound_fires _ _ Hs).
  destruct Hs as [_ [Ht1 Ht2]].
  destruct (timeout (run evs init)) eqn:Ht.
  - simpl. by rewrite Ht1.
  - intros Hp. apply Ht2 in Hp. congruence.
Qed.

(** A quiet stretch only grows the buffer. *)
Lemma run_quiet evs d :
  sound d -> promise d = Pending ->
  forallb silent evs = true -> ws_match (stderr d ++ written evs) = None ->
  run evs d = {| promise := Pending; stderr := stderr d ++ written evs;
                 timeout := true; listeners := listeners d |}.
Proof.
  revert d. induction evs as [|ev evs IH]; intros d Hd Hp Hq Hm.
  - simpl. rewrite app_nil_r. destruct Hd as [_ [_ Ht]]. destruct d; simpl in *.
    rewrite Hp, (Ht Hp). done.
  - simpl in Hq. apply andb_prop in Hq as [Hev Hq]. simpl.
    pose proof (sound_step d ev Hd) as Hd'.
    unfold step in *. rewrite (sound_fires _ _ Hd) in *.
    destruct ev as [chunk|e|[c|]|]; try done; simpl in *.
    + rewrite app_assoc in Hm. unfold on_data in *. simpl in *.
      rewrite (ws_match_prefix _ _ Hm) in *.
      rewrite IH; simpl; try done. by rewrite app_assoc.
    + by apply IH.
Qed.

Lemma run_quiet_init evs :
  quiet evs ->
  run evs init = {| promise := Pending; stderr := written evs; timeout := true;
                    listeners := [OnStderrData; OnChildError; OnChildExit] |}.
Proof. intros [Hq Hm]. by rewrite run_quiet; try apply sound_init. Qed.

(** The outcome of a history whose first event after a quiet stretch is
    [ev]: it is decided by [ev] alone when [ev] settles the promise. *)
Lemma awaited_after_quiet pre ev post :
  quiet pre ->
  promise (step (run pre init) ev) ≠ Pending ->
  awaited (pre ++ ev :: post) = promise (step (run pre init) ev).
Proof.
  intros Hq Hp. unfold awaited.
  rewrite <- app_assoc, run_app. simpl. by rewrite run_settled.
Qed.

End DiscoveryFacts.

Section DiscoveryClaims.
Import Discovery DiscoveryFacts.

(** When only output arrives and the text written in the end holds an
    endpoint, discovery is fulfilled with some address. *)
Lemma data_resolves evs d :
  sound d -> promise d = Pending -> ws_match (stderr d) = None ->
  forallb is_data evs = true ->
  ws_match (stderr d ++ written evs) ≠ None ->
  exists url, promise (run evs d) = Fulfilled url.
Proof.
  revert d. induction evs as [|ev evs IH]; intros d Hd Hp Hn Hall Hm.
  - simpl in Hm. by rewrite app_nil_r in Hm.
  - simpl in Hall. apply andb_prop in Hall as [Hev Hall].
    destruct ev as [chunk| | |]; try done. simpl in *.
    pose proof (sound_step d (StderrData chunk) Hd) as Hd'.
    unfold step in *. rewrite (sound_fires _ _ Hd) in *.
    unfold on_data in *. simpl in *.
    destruct (ws_match (stderr d ++ chunk)) as [m|] eqn:Hc.
    + exists m. rewrite run_settled; simpl; by rewrite Hp.
    + apply IH; simpl; try done. by rewrite <- app_assoc.
Qed.

(** C2, evaluated where it fails: the inspector line arrives in two
    chunks, cut inside the port number.  The whole text holds the
    endpoint [ws://127.0.0.1:9229/0f2c936f-...], but the pattern already
    matches the buffer after the first chunk, so discovery is fulfilled
    with the cut-off address [ws://127.0.0.1:92]. *)
Theorem split_endpoint_is_cut :
  let first := js "Debugger listening on ws://127.0.0.1:92" in
  let second := js "29/0f2c936f-b1cd-4ac9-aab3-f63b0f33d55e
For help, see: https://nodejs.org/en/docs/inspector
" in
  ws_match (first ++ second)
  = Some (js "ws://127.0.0.1:9229/0f2c936f-b1cd-4ac9-aab3-f63b0f33d55e")
  /\ awaited [StderrData first; StderrData second]
     = Fulfilled (js "ws://127.0.0.1:92").
Proof. vm_compute. split; reflexivity. Qed.

(** C4 as stated fails: the child is killed by a signal before any output,
    so its exit has no code; the exit callback does nothing and the
    promise is rejected by the timer, with the timeout error. *)
Lemma signal_exit_ends_in_timeout :
  quiet [] /\ awaited ([] ++ ChildExit None :: []) = Rejected timeout_error.
Proof. vm_compute. repeat split; reflexivity. Qed.

(** C4, amended: after a quiet stretch (no endpoint in the output, no
    deadline), an error event rejects with that error and an exit with a
    code rejects with the early-exit error, which is not the timeout
    error, whatever is dispatched afterwards; an exit without a code is
    ignored, as if it had not been dispatched. *)
Theorem early_exit_precedence pre post :
  quiet pre ->
  (forall error, awaited (pre ++ ChildError error :: post) = Rejected error)
  /\ (forall code,
        awaited (pre ++ ChildExit (Some code) :: post) = Rejected (exit_error code)
        /\ exit_error code ≠ timeout_error)
  /\ awaited (pre ++ ChildExit None :: post) = awaited (pre ++ post).
Proof.
  intros Hq. split; [|split].
  - intros error. rewrite awaited_after_quiet by (try done; by rewrite run_quiet_init).
    by rewrite run_quiet_init.
  - intros code. split; [|by vm_compute].
    rewrite awaited_after_quiet by (try done; by rewrite run_quiet_init).
    by rewrite run_quiet_init.
  - unfold awaited. rewrite <- !app_assoc, !run_app. simpl.
    f_equal. f_equal. unfold step. by destruct (fires _ _).
Qed.

Lemma early_exit_precedence_witness :
  quiet [StderrData (js "node: bad option")]
  /\ awaited ([StderrData (js "node: bad option")] ++ ChildExit (Some 9) :: [Deadline])
     = Rejected (exit_error 9).
Proof.
  split; [by vm_compute|].
  apply (early_exit_precedence [StderrData (js "node: bad option")] [Deadline]).
  by vm_compute.
Defined.

(** C6 as stated fails: the timer settles the promise, and the stderr
    listener is still attached afterwards; a chunk that arrives later runs
    its callback, which goes on filling the buffer. *)
Lemma data_callback_runs_after_timeout :
  let d := run [Deadline] init in
  promise d = Rejected timeout_error
  /\ fires (StderrData (js "late")) d = true
  /\ fires (ChildExit (Some 1)) d = true
  /\ stderr d = []
  /\ stderr (step d (StderrData (js "late"))) = js "late".
Proof. vm_compute. repeat split; reflexivity. Qed.

(** C6, amended: once the promise is settled the timer is inactive, so the
    timeout callback does not run any more, and nothing dispatched later
    changes the result; the three listeners on the child are never
    detached, and their callbacks still run. *)
Theorem settled_result_is_final evs ev :
  promise (run evs init) ≠ Pending ->
  timeout (run evs init) = false
  /\ fires Deadline (run evs init) = false
  /\ promise (step (run evs init) ev) = promise (run evs init)
  /\ listeners (step (run evs init) ev) = [OnStderrData; OnChildError; OnChildExit]
  /\ (ev ≠ Deadline -> fires ev (run evs init) = true).
Proof.
  intros Hp. pose proof (sound_run evs init sound_init) as Hs.
  pose proof (sound_step _ ev Hs) as [Hl _].
  assert (timeout (run evs init) = false) as Ht.
  { destruct Hs as [_ [Ht _]]. destruct (timeout (run evs init)); [|done].
    by destruct Hp; apply Ht. }
  repeat split; try done.
  - by apply step_settled.
  - intros Hev. rewrite (sound_fires _ _ Hs). by destruct ev.
Qed.

Lemma settled_result_is_final_witness :
  promise (run [StderrData (js "ws://h:1/x")] init) ≠ Pending
  /\ promise (step (run [StderrData (js "ws://h:1/x")] init) (ChildExit (Some 0)))
     = promise (run [StderrData (js "ws://h:1/x")] init).
Proof.
  split; [by vm_compute|].
  apply (settled_result_is_final [StderrData (js "ws://h:1/x")] (ChildExit (Some 0))).
  by vm_compute.
Defined.

(** C9 as stated fails: the inspector cannot bind its port and says so on
    stderr, the program keeps running, and the deadline passes.  The
    rejection carries the fixed message only; the captured text is not
    part of it. *)
Lemma timeout_drops_captured_output :
  let evs := [StderrData (js "Starting inspector on 127.0.0.1:9229 failed: address already in use
")] in
  quiet evs
  /\ awaited (evs ++ [Deadline])
     = Rejected (ErrorObj (js "Timeout waiting for inspector WebSocket URL"))
  /\ output evs = js "Starting inspector on 127.0.0.1:9229 failed: address already in use
"
  /\ includes (output evs) (js "Timeout waiting for inspector WebSocket URL") = false.
Proof. vm_compute. repeat split; reflexivity. Qed.

(** C9, amended: when the deadline passes after a quiet stretch, discovery
    is rejected with the one fixed timeout error, whatever was captured;
    the captured text stays in the local buffer. *)
Theorem timeout_error_is_fixed pre post :
  quiet pre ->
  awaited (pre ++ Deadline :: post) = Rejected timeout_error
  /\ describe timeout_error = js "Timeout waiting for inspector WebSocket URL"
  /\ output pre = written pre.
Proof.
  intros Hq. split; [|split; [done|]].
  - rewrite awaited_after_quiet by (try done; by rewrite run_quiet_init).
    by rewrite run_quiet_init.
  - unfold output. by rewrite run_quiet_init.
Qed.

Lemma timeout_error_is_fixed_witness :
  quiet [StderrData (js "Waiting for the debugger to disconnect...")]
  /\ awaited ([StderrData (js "Waiting for the debugger to disconnect...")] ++ Deadline :: [])
     = Rejected timeout_error.
Proof.
  split; [by vm_compute|].
  apply (timeout_error_is_fixed [StderrData (js "Waiting for the debugger to disconnect...")] []).
  by vm_compute.
Defined.

End DiscoveryClaims.

(** ** The handler *)

Section OrchestratorFacts.
Context {PausedEvent : Type}.
Implicit Types (w : @World PausedEvent) (env : Env) (a : StartSessionArgs).

(** The world a successful call leaves, and its result. *)
Lemma start_session_ok env a child url w :
  Ready env a child url ->
  start_session env a w
  = Some ({| sessions := <[generateSessionId env := length (session_objs w)]> (sessions w);
             session_objs :=
               session_objs w
               ++ [{| id := generateSessionId env; wsUrl := url;
                      client := length (clients w); process := Some child;
                      breakpoints := length (map_objs w); lastPaused := None |}];
             map_objs := map_objs w ++ [∅];
             clients :=
               clients w
               ++ [{| target := url; open := true;
                      handlers := callbacks_of (length (session_objs w)) |}] |},
          inr {| isError := false;
                 content := [Stringified
                               {| info_sessionId := generateSessionId env;
                                  info_wsUrl := url; info_pid := pid child;
                                  info_runner := runner a; info_entry := entry a |}] |}).
Proof.
  intros (Hs & Hd & Hc & He1 & He2). unfold spawned in Hs.
  unfold start_session, try_catch, bind, call_spawn, call_CDP, call_enable.
  rewrite Hs. simpl. rewrite Hd. simpl. rewrite Hc, He1, He2. simpl.
  do 2 f_equal. f_equal.
  replace (length (clients w)) with (length (clients w) + 0)%nat at 1 2 by lia.
  by rewrite !alter_app_r.
Qed.

(** The world a failing call leaves: the stores of sessions and maps and
    the registry are untouched; a client is there when the connection had
    been made. *)
Lemma start_session_failure env a e w :
  StageFailure env a e ->
  exists w', start_session env a w = Some (w', inr (failure e))
    /\ sessions w' = sessions w
    /\ session_objs w' = session_objs w
    /\ map_objs w' = map_objs w
    /\ (clients w' = clients w
        \/ exists url, clients w'
                       = clients w ++ [{| target := url; open := true; handlers := [] |}]).
Proof.
  unfold start_session, try_catch, bind, call_spawn, call_CDP, call_enable.
  intros [e' Hs | child e' Hs Hd | child url e' Hs Hd Hc
         | child url e' Hs Hd Hc [He | [He1 He2]]];
    unfold spawned in Hs; rewrite Hs; simpl;
    try (rewrite Hd; simpl); try (rewrite Hc; simpl);
    try (rewrite He; simpl); try (rewrite He1, He2; simpl);
    eexists; (split; [reflexivity|]); simpl; eauto 10.
Qed.

(** Each call either fails at some stage or passes them all. *)
Lemma stages_decided env a :
  (exists e, StageFailure env a e) \/ (exists child url, Ready env a child url).
Proof.
  destruct (spawned env a) as [e|child] eqn:Hs; [left; exists e; by constructor|].
  destruct (Discovery.awaited (dispatched child)) as [|url|e] eqn:Hd.
  - by destruct (DiscoveryFacts.awaited_settled (dispatched child)).
  - destruct (CDP env url) as [e|] eqn:Hc;
      [left; exists e; by eapply connection_failure|].
    destruct (Debugger_enable env) as [e|] eqn:He1;
      [left; exists e; eapply enable_failure; eauto; by left|].
    destruct (Runtime_enable env) as [e|] eqn:He2;
      [left; exists e; eapply enable_failure; eauto; by right|].
    right. by exists child, url.
  - left. exists e. by eapply discovery_failure.
Qed.

(** The handler always resumes and never lets an exception escape. *)
Lemma start_session_returns env a w :
  exists w' r, start_session env a w = Some (w', inr r).
Proof.
  destruct (stages_decided env a) as [[e He] | (child & url & Hr)].
  - destruct (start_session_failure env a e w He) as (w' & Hw & _). eauto.
  - rewrite (start_session_ok env a child url w Hr). eauto.
Qed.

(** *** The stores stay consistent *)

Lemma consistent_empty : consistent (@empty_world PausedEvent).
Proof.
  split; [|split]; simpl.
  - intros s sess Hs. by rewrite lookup_nil in Hs.
  - intros c cl h Hc. by rewrite lookup_nil in Hc.
  - intros k s Hk. by rewrite lookup_empty in Hk.
Qed.

Lemma consistent_assign s v w : consistent w -> consistent (assign_lastPaused s v w).
Proof.
  intros (H1 & H2 & H3). split; [|split]; simpl.
  - intros j sess' Hj. rewrite list_lookup_alter in Hj.
    destruct (decide (s = j)) as [->|]; [|by apply H1].
    destruct (session_objs w !! j) as [sess|] eqn:E; [|done].
    injection Hj as <-. exact (H1 _ _ E).
  - intros c cl h Hc Hh. destruct (H2 c cl h Hc Hh) as (sess & Hs & Hcl).
    rewrite list_lookup_alter.
    destruct (decide (s = session_of (snd h))) as [->|]; [|eauto].
    rewrite Hs. simpl. eauto.
  - intros k j Hk. rewrite length_alter. eauto.
Qed.

Lemma consistent_emit c n w : consistent w -> consistent (emit c n w).
Proof.
  intros Hw. unfold emit. destruct (clients w !! c) as [cl|]; [|done].
  generalize (handlers cl). intros hs. revert w Hw.
  induction hs as [|h hs IH]; intros w Hw; simpl; [done|].
  apply IH. destruct (subscribed _ _); [|done].
  destruct (snd h); simpl; by apply consistent_assign.
Qed.

Lemma consistent_call env a w w' r :
  consistent w -> start_session env a w = Some (w', r) -> consistent w'.
Proof.
  intros (H1 & H2 & H3) Hcall.
  destruct (stages_decided env a) as [[e He] | (child & url & Hr)].
  - destruct (start_session_failure env a e w He) as (w'' & Hw & Hs & Ho & Hm & Hc).
    rewrite Hw in Hcall. injection Hcall as <- _.
    split; [|split].
    + intros s sess Hl. rewrite Ho in Hl. rewrite Hm.
      destruct (H1 s sess Hl) as [Hb (cl & Hcl & Hh)]. split; [done|].
      exists cl. split; [|done].
      destruct Hc as [-> | [u ->]]; [done | by apply lookup_app_l_Some].
    + intros c cl h Hcl Hh. rewrite Ho.
      destruct Hc as [Hc | [u Hc]]; rewrite Hc in Hcl; [eauto|].
      apply lookup_snoc_Some in Hcl as [[_ Hcl] | [_ <-]]; [eauto|].
      by apply elem_of_nil in Hh.
    + intros k s Hk. rewrite Hs in Hk. rewrite Ho. eauto.
  - rewrite (start_session_ok _ _ _ _ w Hr) in Hcall. injection Hcall as <- _.
    split; [|split]; simpl.
    + intros s sess Hl. rewrite length_app. simpl.
      apply lookup_snoc_Some in Hl as [[Hlt Hl] | [-> <-]].
      * destruct (H1 s sess Hl) as [Hb (cl & Hcl & Hh)]. split; [lia|].
        exists cl. split; [by apply lookup_app_l_Some | done].
      * simpl. split; [lia|]. eexists. split; [by apply list_lookup_middle | done].
    + intros c cl h Hcl Hh.
      apply lookup_snoc_Some in Hcl as [[Hlt Hcl] | [-> <-]].
      * destruct (H2 c cl h Hcl Hh) as (sess & Hs & Hc). exists sess.
        split; [by apply lookup_app_l_Some | done].
      * exists {| id := generateSessionId env; wsUrl := url;
                  client := length (clients w); process := Some child;
                  breakpoints := length (map_objs w); lastPaused := None |}.
        split; [|done].
        apply elem_of_cons in Hh as [-> | Hh];
          [|apply list_elem_of_singleton in Hh as ->]; simpl;
          by apply list_lookup_middle.
    + intros k s Hk. rewrite length_app. simpl.
      destruct (decide (generateSessionId env = k)) as [Heq|Hne]; [subst k|].
      * rewrite lookup_insert_eq in Hk. injection Hk as <-. lia.
      * rewrite lookup_insert_ne in Hk by done. apply H3 in Hk. lia.
Qed.

Lemma consistent_act w x : consistent w -> consistent (act w x).
Proof.
  intros Hw. destruct x as [env a | c n]; simpl; [|by apply consistent_emit].
  destruct (start_session env a w) as [[w' r]|] eqn:Hcall; [|done].
  by eapply consistent_call.
Qed.

Lemma consistent_history xs w : consistent w -> consistent (history xs w).
Proof.
  revert w. induction xs as [|x xs IH]; intros w Hw; [done|].
  apply IH. by apply consistent_act.
Qed.

(** *** A session object is changed by its own client's notifications only *)

Lemma call_keeps env a w w' r s sess :
  start_session env a w = Some (w', r) ->
  session_objs w !! s = Some sess -> session_objs w' !! s = Some sess.
Proof.
  intros Hcall Hs.
  destruct (stages_decided env a) as [[e He] | (child & url & Hr)].
  - destruct (start_session_failure env a e w He) as (w'' & Hw & _ & Ho & _).
    rewrite Hw in Hcall. injection Hcall as <- _. by rewrite Ho.
  - rewrite (start_session_ok _ _ _ _ w Hr) in Hcall. injection Hcall as <- _.
    simpl. by apply lookup_app_l_Some.
Qed.

Lemma dispatch_other hs (n : @Notification PausedEvent) w s :
  (forall h, h ∈ hs -> session_of (snd h) ≠ s) ->
  session_objs
    (foldl (fun w h => if subscribed (fst h) n then invoke (snd h) n w else w) w hs)
    !! s
  = session_objs w !! s.
Proof.
  revert w. induction hs as [|h hs IH]; intros w Hhs; simpl; [done|].
  rewrite IH by (intros h' Hh'; apply Hhs; by right).
  destruct (subscribed _ _); [|done].
  assert (session_of (snd h) ≠ s) as Hne by (apply Hhs; by left).
  destruct (snd h); simpl in *; by rewrite list_lookup_alter_ne.
Qed.

Lemma emit_other c n w s sess :
  consistent w -> session_objs w !! s = Some sess -> c ≠ client sess ->
  session_objs (emit c n w) !! s = Some sess.
Proof.
  intros (_ & H2 & _) Hs Hc. unfold emit.
  destruct (clients w !! c) as [cl|] eqn:Hcl; [|done].
  rewrite dispatch_other; [done|].
  intros h Hh Heq. destruct (H2 c cl h Hcl Hh) as (sess' & Hs' & Hc').
  rewrite Heq in Hs'. congruence.
Qed.

Lemma emit_own n w s sess :
  consistent w -> session_objs w !! s = Some sess ->
  session_objs (emit (client sess) n w) !! s
  = Some match n with
         | DebuggerPaused event => set_lastPaused (Some event) sess
         | DebuggerResumed => set_lastPaused None sess
         | OtherNotification _ => sess
         end.
Proof.
  intros (H1 & _) Hs. destruct (H1 s sess Hs) as [_ (cl & Hcl & Hh)].
  unfold emit. rewrite Hcl, Hh.
  destruct n; simpl; rewrite ?list_lookup_alter_eq, ?Hs; done.
Qed.

Lemma delivered_app c (xs ys : list (@Action PausedEvent)) :
  delivered c (xs ++ ys) = delivered c xs ++ delivered c ys.
Proof.
  induction xs as [|[env a | c' n] xs IH]; simpl; [done..|].
  case_bool_decide; by rewrite IH.
Qed.

(** After any history, a session holds what it held, but for [lastPaused],
    which is decided by the last pause-or-resume notification delivered on
    its client. *)
Lemma snapshot_after ys w s sess :
  consistent w -> session_objs w !! s = Some sess ->
  session_objs (history ys w) !! s
  = Some (set_lastPaused
            match last (filter (fun n => pause_or_resume n = true)
                               (delivered (client sess) ys)) with
            | Some (DebuggerPaused event) => Some event
            | Some _ => None
            | None => lastPaused sess
            end sess).
Proof.
  intros Hw Hs. induction ys as [|y ys IH] using rev_ind.
  - simpl. rewrite Hs. by destruct sess.
  - unfold history in *. rewrite foldl_snoc.
    pose proof (consistent_history ys w Hw) as Hw'. unfold history in Hw'.
    rewrite delivered_app, filter_app, last_app.
    destruct y as [env a | c n]; simpl.
    + destruct (start_session env a _) as [[w' r]|] eqn:Hcall; [|done].
      by apply (call_keeps _ _ _ _ _ _ _ Hcall).
    + case_bool_decide as Hc.
      * subst c.
        pose proof (emit_own n _ s _ Hw' IH) as He. simpl in He. rewrite He.
        destruct n; simpl; by destruct sess.
      * simpl. by apply emit_other.
Qed.

(** *** The claims about a call *)

(** C1: when a stage fails (process spawn, endpoint discovery, connection
    establishment or domain enabling), the call returns normally, with one
    error-flagged result whose only content item is the message
    [Failed to start debug session: ] followed by the failure's
    description, and neither the registry nor the store of sessions has
    changed. *)
Theorem failed_call_registers_nothing env a e w :
  StageFailure env a e ->
  exists w',
    start_session env a w = Some (w', inr (failure e))
    /\ sessions w' = sessions w
    /\ session_objs w' = session_objs w
    /\ isError (failure e) = true
    /\ content (failure e)
       = [Message (js "Failed to start debug session: " ++ describe e)].
Proof.
  intros He. destruct (start_session_failure env a e w He) as (w' & Hw & Hs & Ho & _).
  by exists w'.
Qed.

(** C5, amended: when the connection is made and one of the two [enable]
    commands fails, the call returns the error-flagged result for that
    failure and registers nothing; the client it connected is left as it
    was made, with its connection open. *)
Theorem enable_failure_leaves_connection_open env a child url e w :
  spawned env a = inr child ->
  Discovery.awaited (dispatched child) = Fulfilled url ->
  CDP env url = None ->
  EnableFailure env e ->
  start_session env a w
  = Some ({| sessions := sessions w; session_objs := session_objs w;
             map_objs := map_objs w;
             clients := clients w
                        ++ [{| target := url; open := true; handlers := [] |}] |},
          inr (failure e)).
Proof.
  unfold spawned, start_session, try_catch, bind, call_spawn, call_CDP, call_enable.
  intros Hs Hd Hc [He | [He1 He2]]; rewrite Hs; simpl; rewrite Hd; simpl;
    rewrite Hc; simpl; rewrite ?He, ?He1, ?He2; done.
Qed.

(** C7, amended: when the generated identifier is already a key of the
    registry, the call still succeeds, and [sessions.set] replaces the
    entry: the key now leads to the new session, not to the one it led to
    before; the other keys are untouched. *)
Theorem duplicate_id_overwrites xs env a child url s0 :
  Ready env a child url ->
  sessions (history xs empty_world) !! generateSessionId env = Some s0 ->
  exists w' r,
    start_session env a (history xs empty_world) = Some (w', inr r)
    /\ isError r = false
    /\ sessions w' !! generateSessionId env
       = Some (length (session_objs (history xs empty_world)))
    /\ s0 ≠ length (session_objs (history xs empty_world))
    /\ (forall k, k ≠ generateSessionId env ->
          sessions w' !! k = sessions (history xs empty_world) !! k).
Proof.
  intros Hr Hk.
  pose proof (consistent_history xs _ consistent_empty) as (_ & _ & H3).
  rewrite (start_session_ok _ _ _ _ _ Hr). do 2 eexists.
  split; [reflexivity|]. simpl. split; [done|]. split; [by rewrite lookup_insert_eq|].
  split; [apply H3 in Hk; lia|].
  intros k Hne. by rewrite lookup_insert_ne.
Qed.

(** C10: after any history, a call whose stages all succeed stores a
    session under its own [id]; the session has the discovered endpoint
    and the spawned process, no pause snapshot, and a breakpoints map that
    is empty, was not allocated before the call, and is the map of no
    other session; the result carries the session's id and endpoint and
    the process's pid. *)
Theorem successful_call_registers_session xs env a child url :
  Ready env a child url ->
  exists w' s sess info,
    start_session env a (history xs empty_world)
    = Some (w', inr {| isError := false; content := [Stringified info] |})
    /\ sessions w' !! id sess = Some s
    /\ session_objs w' !! s = Some sess
    /\ info_sessionId info = id sess
    /\ info_wsUrl info = wsUrl sess
    /\ wsUrl sess = url
    /\ process sess = Some child
    /\ info_pid info = pid child
    /\ lastPaused sess = None
    /\ map_objs w' !! breakpoints sess = Some ∅
    /\ map_objs (history xs empty_world) !! breakpoints sess = None
    /\ (forall s' sess', session_objs w' !! s' = Some sess' -> s' ≠ s ->
          breakpoints sess' ≠ breakpoints sess).
Proof.
  intros Hr.
  pose proof (consistent_history xs _ consistent_empty) as (H1 & _ & _).
  rewrite (start_session_ok _ _ _ _ _ Hr).
  set (w := history xs empty_world) in *.
  eexists _, (length (session_objs w)),
    {| id := generateSessionId env; wsUrl := url; client := length (clients w);
       process := Some child; breakpoints := length (map_objs w);
       lastPaused := None |}, _.
  split; [reflexivity|]. simpl.
  split; [by rewrite lookup_insert_eq|].
  split; [by apply list_lookup_middle|].
  do 6 (split; [done|]).
  split; [by apply list_lookup_middle|].
  split; [by apply lookup_ge_None|].
  intros s' sess' Hs' Hne.
  apply lookup_snoc_Some in Hs' as [[_ Hs'] | [? _]]; [|done].
  apply H1 in Hs' as [Hb _]. lia.
Qed.

(** C3: take the session a successful call creates, after any history, and
    let any further history follow (calls, and notifications on any
    client).  The session is still in place, and its snapshot is the
    payload of the last pause-or-resume notification delivered on its
    client when that one is a pause, and absent otherwise: a pause sets
    it, a resume clears it, a later pause replaces an earlier one, and
    nothing else touches it.  So it is present exactly when the last such
    notification was a pause. *)
Theorem pause_snapshot_follows_notifications xs env a child url ys :
  Ready env a child url ->
  exists w1 r sess,
    start_session env a (history xs empty_world) = Some (w1, inr r)
    /\ session_objs (history ys w1) !! length (session_objs (history xs empty_world))
       = Some sess
    /\ id sess = generateSessionId env
    /\ client sess = length (clients (history xs empty_world))
    /\ lastPaused sess
       = last_pause (delivered (length (clients (history xs empty_world))) ys)
    /\ (is_Some (lastPaused sess)
        <-> exists event,
              last (filter (fun n => pause_or_resume n = true)
                           (delivered (length (clients (history xs empty_world))) ys))
              = Some (DebuggerPaused event)).
Proof.
  intros Hr.
  pose proof (consistent_history xs _ consistent_empty) as Hw.
  pose proof (start_session_ok _ _ _ _ (history xs empty_world) Hr) as Hcall.
  pose proof (consistent_call _ _ _ _ _ Hw Hcall) as Hw1.
  rewrite Hcall. do 3 eexists. split; [reflexivity|].
  split.
  { apply snapshot_after; [done|]. simpl. by apply list_lookup_middle. }
  simpl. do 2 (split; [done|]).
  unfold last_pause.
  destruct (last _) as [[event| |m]|]; simpl; (split; [done|]);
    split; try (by intros [? [=]]); try (by intros [? ?]); eauto.
Qed.

(** *** Identifiers of a run of calls *)

Lemma reported_ids_sublist cs w :
  flat_map reported_id (serve cs w)
  `sublist_of` map (fun c => generateSessionId (fst c)) cs.
Proof.
  revert w. induction cs as [|[env a] cs IH]; intros w; simpl; [done|].
  destruct (stages_decided env a) as [[e He] | (child & url & Hr)].
  - destruct (start_session_failure env a e w He) as (w' & -> & _). simpl.
    by apply sublist_cons.
  - rewrite (start_session_ok _ _ _ _ w Hr). simpl. by apply sublist_skip.
Qed.

(** C8, amended: the identifiers reported by a run of calls of one server
    process are pairwise distinct when the calls' pairs of
    [Date.now()] and seven-character random suffix are pairwise
    distinct. *)
Theorem distinct_draws_give_distinct_ids cs w p :
  (forall c, c ∈ cs -> process_pid (fst c) = p) ->
  NoDup (map (fun c => (Date_now (fst c), random_suffix (fst c))) cs) ->
  NoDup (flat_map reported_id (serve cs w)).
Proof.
  intros Hp Hnd. eapply sublist_NoDup; [|apply reported_ids_sublist].
  clear w. induction cs as [|c cs IH]; simpl in *; [constructor|].
  apply NoDup_cons in Hnd as [Hc Hnd]. apply NoDup_cons. split.
  - intros Hin. apply Hc.
    apply list_elem_of_In, in_map_iff in Hin as (c' & Heq & Hc').
    apply list_elem_of_In, in_map_iff. exists c'. split; [|done].
    apply generateSessionId_eq in Heq as [-> ->]; [done|].
    rewrite (Hp c) by left. apply Hp. right. by apply list_elem_of_In.
  - apply IH; [|done]. intros c' Hc'. apply Hp. by right.
Qed.

End OrchestratorFacts.

(** ** The claims at the scenarios *)

Lemma healthy_env_ready now fraction :
  Ready (healthy_env now fraction) script_args listening_child inspector_url.
Proof. repeat split; vm_compute; reflexivity. Defined.

Lemma failed_call_registers_nothing_witness :
  StageFailure missing_runner_env script_args (ErrorObj (js "spawn tsx ENOENT"))
  /\ exists w',
       start_session (PausedEvent := JSString) missing_runner_env script_args empty_world
       = Some (w', inr (failure (ErrorObj (js "spawn tsx ENOENT"))))
       /\ sessions w' = ∅.
Proof.
  assert (StageFailure missing_runner_env script_args (ErrorObj (js "spawn tsx ENOENT")))
    as H by (eapply discovery_failure; vm_compute; reflexivity).
  split; [exact H|].
  destruct (failed_call_registers_nothing (PausedEvent := JSString)
              missing_runner_env script_args _ empty_world H)
    as (w' & Hcall & Hs & _).
  exists w'. split; [exact Hcall | exact Hs].
Defined.

(** C5 as stated fails: [Debugger.enable] is refused on a connection that
    was made; the call returns its error result and the client it connected
    is still open. *)
Lemma enable_failure_connection_not_closed :
  start_session (PausedEvent := JSString) refusing_env script_args empty_world
  = Some ({| sessions := ∅; session_objs := []; map_objs := [];
             clients := [{| target := inspector_url; open := true; handlers := [] |}] |},
          inr (failure (ErrorObj (js "'Debugger.enable' wasn't found")))).
Proof. vm_compute. reflexivity. Qed.

Lemma enable_failure_leaves_connection_open_witness :
  EnableFailure refusing_env (ErrorObj (js "'Debugger.enable' wasn't found"))
  /\ exists w',
       start_session (PausedEvent := JSString) refusing_env script_args empty_world
       = Some (w', inr (failure (ErrorObj (js "'Debugger.enable' wasn't found"))))
       /\ open <$> clients w' = [true].
Proof.
  assert (EnableFailure refusing_env (ErrorObj (js "'Debugger.enable' wasn't found")))
    as H by (left; reflexivity).
  split; [exact H|]. eexists. split.
  - apply (enable_failure_leaves_connection_open (PausedEvent := JSString)
             refusing_env script_args listening_child inspector_url);
      [vm_compute; reflexivity.. | exact H].
  - reflexivity.
Defined.

(** C7 as stated fails: a second call draws the same clock value and the
    same random number as the first.  It succeeds like the first, and the
    registry entry of the first session now leads to the second. *)
Lemma duplicate_id_not_rejected :
  let env := healthy_env 1700000000123 [10; 11; 3; 35; 0; 7; 20; 1; 9]%N in
  let w1 := history (PausedEvent := JSString) [Call env script_args] empty_world in
  exists w2 r,
    sessions w1 !! generateSessionId env = Some 0%nat
    /\ start_session env script_args w1 = Some (w2, inr r)
    /\ isError r = false
    /\ sessions w2 !! generateSessionId env = Some 1%nat
    /\ length (session_objs w2) = 2%nat.
Proof. do 2 eexists. vm_compute. repeat split; reflexivity. Qed.

Lemma duplicate_id_overwrites_witness :
  let env := healthy_env 1700000000123 [10; 11; 3; 35; 0; 7; 20; 1; 9]%N in
  let xs := [Call (PausedEvent := JSString) env script_args] in
  (Ready env script_args listening_child inspector_url
   /\ sessions (history xs empty_world) !! generateSessionId env = Some 0%nat)
  /\ exists w' r,
       start_session env script_args (history xs empty_world) = Some (w', inr r)
       /\ isError r = false
       /\ sessions w' !! generateSessionId env = Some 1%nat.
Proof.
  intros env xs.
  assert (sessions (history xs empty_world) !! generateSessionId env = Some 0%nat)
    as Hk by (vm_compute; reflexivity).
  split; [split; [apply healthy_env_ready | exact Hk]|].
  destruct (duplicate_id_overwrites xs env script_args listening_child inspector_url 0
              (healthy_env_ready _ _) Hk)
    as (w' & r & Hcall & Hr & Hs & _).
  exists w', r. split; [exact Hcall | split; [exact Hr | exact Hs]].
Defined.

(** C8 as stated fails: two calls in the same millisecond whose random draws
    differ only after the seventh digit report the same identifier. *)
Lemma same_millisecond_ids_collide :
  let env1 := healthy_env 1700000000123 [10; 11; 3; 35; 0; 7; 20; 1; 9]%N in
  let env2 := healthy_env 1700000000123 [10; 11; 3; 35; 0; 7; 20; 2; 4]%N in
  Math_random env1 ≠ Math_random env2
  /\ flat_map reported_id
       (serve (PausedEvent := JSString)
          [(env1, script_args); (env2, script_args)] empty_world)
     = [js "4242-1700000000123-ab3z07k"; js "4242-1700000000123-ab3z07k"].
Proof. split; [by vm_compute | vm_compute; reflexivity]. Qed.

Lemma distinct_draws_give_distinct_ids_witness :
  let cs := [(healthy_env 1700000000123 [10; 11; 3]%N, script_args);
             (healthy_env 1700000000124 [10; 11; 3]%N, script_args)] in
  ((forall c, c ∈ cs -> process_pid (fst c) = 4242)
   /\ NoDup (map (fun c => (Date_now (fst c), random_suffix (fst c))) cs))
  /\ NoDup (flat_map reported_id (serve (PausedEvent := JSString) cs empty_world)).
Proof.
  intros cs.
  assert (forall c, c ∈ cs -> process_pid (fst c) = 4242) as Hp.
  { intros c Hc. apply elem_of_cons in Hc as [-> | Hc]; [reflexivity|].
    apply list_elem_of_singleton in Hc as ->. reflexivity. }
  assert (NoDup (map (fun c => (Date_now (fst c), random_suffix (fst c))) cs)) as Hnd.
  { vm_compute. apply NoDup_cons. split; [|apply NoDup_singleton].
    intros Hin. apply list_elem_of_singleton in Hin. discriminate Hin. }
  split; [split; [exact Hp | exact Hnd]|].
  exact (distinct_draws_give_distinct_ids cs empty_world 4242 Hp Hnd).
Defined.

Lemma successful_call_registers_session_witness :
  Ready (healthy_env 1700000000123 [10; 11; 3]%N) script_args listening_child inspector_url
  /\ exists w' s sess info,
       start_session (PausedEvent := JSString)
         (healthy_env 1700000000123 [10; 11; 3]%N) script_args (history [] empty_world)
       = Some (w', inr {| isError := false; content := [Stringified info] |})
       /\ sessions w' !! id sess = Some s
       /\ session_objs w' !! s = Some sess
       /\ map_objs w' !! breakpoints sess = Some ∅.
Proof.
  split; [apply healthy_env_ready|].
  destruct (successful_call_registers_session (PausedEvent := JSString) []
              (healthy_env 1700000000123 [10; 11; 3]%N) script_args
              listening_child inspector_url (healthy_env_ready _ _))
    as (w' & s & sess & info & H1 & H2 & H3 & _ & _ & _ & _ & _ & _ & H4 & _).
  exists w', s, sess, info. repeat split; assumption.
Defined.

Lemma pause_snapshot_follows_notifications_witness :
  let env := healthy_env 1700000000123 [10; 11; 3]%N in
  let ys := [Notify 0 (DebuggerPaused (js "Break on start"));
             Notify 0 DebuggerResumed;
             Notify 0 (DebuggerPaused (js "breakpoint"));
             Call env script_args;
             Notify 1 DebuggerResumed;
             Notify 0 (DebuggerPaused (js "step"))] in
  Ready env script_args listening_child inspector_url
  /\ exists w1 r sess,
       start_session env script_args (history [] empty_world) = Some (w1, inr r)
       /\ session_objs (history ys w1) !! 0%nat = Some sess
       /\ lastPaused sess = Some (js "step").
Proof.
  intros env ys. split; [apply healthy_env_ready|].
  destruct (pause_snapshot_follows_notifications [] env script_args
              listening_child inspector_url ys (healthy_env_ready _ _))
    as (w1 & r & sess & H1 & H2 & _ & _ & H3 & _).
  exists w1, r, sess. split; [exact H1 | split; [exact H2 | exact H3]].
Defined.

(** * Further properties *)

(** ** The pattern, characterised *)

Lemma strip_prefix_Some p s r : strip_prefix p s = Some r <-> s = p ++ r.
Proof.
  revert s. induction p as [|a p IH]; intros s; simpl.
  - split; [by intros [= ->] | by intros ->].
  - destruct s as [|b s]; [done|]. case_bool_decide as Hab.
    + subst b. rewrite IH. split; [by intros -> | by intros [= ->]].
    + split; [done | intros [= ? _]; congruence].
Qed.

Lemma non_space_run_split s :
  exists post, s = non_space_run s ++ post
    /\ Forall (fun c => is_space c = false) (non_space_run s)
    /\ tail_is_cut post.
Proof.
  induction s as [|c s (post & Hs & Hrun & Hpost)]; simpl.
  - by exists [].
  - destruct (is_space c) eqn:Hc.
    + by exists (c :: s).
    + exists post. split; [simpl; by f_equal|]. split; [by constructor | done].
Qed.

Lemma non_space_run_exact run post :
  Forall (fun c => is_space c = false) run -> tail_is_cut post ->
  non_space_run (run ++ post) = run.
Proof.
  intros Hrun Hpost. induction Hrun as [|c run Hc _ IH]; simpl.
  - destruct post as [|c post]; [done|]. simpl in *. by rewrite Hpost.
  - by rewrite Hc, IH.
Qed.

Lemma match_here_Some s m :
  match_here s = Some m
  <-> exists run post,
        s = ws_scheme ++ run ++ post /\ m = ws_scheme ++ run /\ run ≠ []
        /\ Forall (fun c => is_space c = false) run /\ tail_is_cut post.
Proof.
  unfold match_here. split.
  - destruct (strip_prefix ws_scheme s) as [r|] eqn:Hs; [|done].
    apply strip_prefix_Some in Hs as ->.
    destruct (non_space_run_split r) as (post & Hr & Hrun & Hpost).
    destruct (non_space_run r) as [|c run] eqn:Hn; [done|].
    intros [= <-]. exists (c :: run), post. by rewrite <- Hr.
  - intros (run & post & -> & -> & Hne & Hrun & Hpost).
    assert (strip_prefix ws_scheme (ws_scheme ++ run ++ post) = Some (run ++ post)) as ->
      by by apply strip_prefix_Some.
    rewrite non_space_run_exact by done. by destruct run.
Qed.

Lemma ws_match_Some s m :
  ws_match s = Some m
  <-> exists pre rest,
        s = pre ++ rest /\ match_here rest = Some m
        /\ forall k, (k < length pre)%nat -> match_here (drop k s) = None.
Proof.
  split.
  - revert m. induction s as [|c s IH]; intros m; [done|]. simpl ws_match.
    destruct (match_here (c :: s)) as [m'|] eqn:Hh.
    + intros [= ->]. exists [], (c :: s). repeat split; [done|]. simpl. lia.
    + intros (pre & rest & -> & Hm & Hleft)%IH. exists (c :: pre), rest.
      repeat split; [done|]. intros [|k] Hk; simpl in *; [done|]. apply Hleft. lia.
  - intros (pre & rest & -> & Hm & Hleft). induction pre as [|c pre IH]; simpl.
    + destruct rest as [|c rest]; [by vm_compute in Hm|]. simpl. by rewrite Hm.
    + pose proof (Hleft 0%nat) as H0. simpl in H0. rewrite H0 by lia.
      apply IH. intros k Hk. apply (Hleft (S k)). simpl. lia.
Qed.

Lemma ws_match_here s m : match_here s = Some m -> ws_match s = Some m.
Proof. destruct s; [by vm_compute|]. simpl. by intros ->. Qed.

Lemma match_here_length s m : match_here s = Some m -> (6 <= length s)%nat.
Proof.
  intros (run & post & -> & _ & Hne & _)%match_here_Some.
  rewrite !length_app. destruct run; [done|]. simpl. lia.
Qed.

Lemma match_here_app_None u t :
  match_here u = None -> (6 <= length u)%nat -> match_here (u ++ t) = None.
Proof.
  intros Hu Hlen.
  destruct u as [|a [|b [|c [|d [|e [|f u]]]]]]; simpl in Hlen; try lia.
  revert Hu. unfold match_here.
  change ws_scheme with [119; 115; 58; 47; 47]%N. simpl.
  repeat (case_bool_decide; [|done]). simpl. by destruct (is_space f).
Qed.

(** The leftmost attempt that succeeds in [s] is still the leftmost one when
    more text follows. *)
Lemma ws_match_app_here s t pre rest m m' :
  s = pre ++ rest -> match_here rest = Some m ->
  (forall k, (k < length pre)%nat -> match_here (drop k s) = None) ->
  match_here (rest ++ t) = Some m' ->
  ws_match (s ++ t) = Some m'.
Proof.
  intros -> Hm Hleft Hm'. apply ws_match_Some. exists pre, (rest ++ t).
  split; [by rewrite app_assoc|]. split; [done|].
  intros k Hk. rewrite drop_app_le by (rewrite length_app; lia).
  apply match_here_app_None; [by apply Hleft|].
  apply match_here_length in Hm. rewrite length_drop, length_app. lia.
Qed.

Lemma ws_match_app_longer s t m :
  ws_match s = Some m ->
  exists ext, ws_match (s ++ t) = Some (m ++ ext)
    /\ Forall (fun c => is_space c = false) ext.
Proof.
  intros (pre & rest & Hs & Hm & Hleft)%ws_match_Some.
  pose proof Hm as (run & post & -> & -> & Hne & Hrun & Hpost)%match_here_Some.
  destruct post as [|c post].
  - destruct (non_space_run_split t) as (post' & Ht & Hext & Hpost').
    exists (non_space_run t). split; [|done].
    eapply ws_match_app_here; eauto. apply match_here_Some.
    exists (run ++ non_space_run t), post'.
    split; [rewrite app_nil_r, <- !app_assoc; by rewrite <- Ht|].
    split; [by rewrite app_assoc|]. split; [by destruct run|].
    split; [by apply Forall_app|done].
  - exists []. split; [|done]. rewrite app_nil_r.
    eapply ws_match_app_here; eauto. apply match_here_Some.
    exists run, ((c :: post) ++ t). by rewrite <- !app_assoc.
Qed.

Lemma ws_match_app_closed s t m :
  ws_match s = Some m ->
  (exists c, last s = Some c /\ is_space c = true) ->
  ws_match (s ++ t) = Some m.
Proof.
  intros (pre & rest & Hs & Hm & Hleft)%ws_match_Some (c & Hlast & Hc).
  pose proof Hm as (run & post & -> & -> & Hne & Hrun & Hpost)%match_here_Some.
  eapply ws_match_app_here; eauto. apply match_here_Some.
  destruct post as [|c' post].
  - exfalso. rewrite Hs, app_nil_r, !last_app in Hlast.
    destruct (last run) as [c'|] eqn:Hl.
    + injection Hlast as ->. apply last_Some in Hl as (run' & ->).
      apply Forall_app in Hrun as [_ Hrun]. apply Forall_inv in Hrun.
      simpl in Hrun. congruence.
    + apply last_None in Hl. done.
  - exists run, ((c' :: post) ++ t). by rewrite <- !app_assoc.
Qed.

Lemma ws_match_found s :
  is_Some (ws_match s)
  <-> exists pre c post, s = pre ++ ws_scheme ++ c :: post /\ is_space c = false.
Proof.
  split.
  - intros [m (pre & rest & -> & Hm & _)%ws_match_Some].
    apply match_here_Some in Hm as (run & post & -> & _ & Hne & Hrun & _).
    destruct run as [|c run]; [done|]. apply Forall_cons in Hrun as [Hc _].
    by exists pre, c, (run ++ post).
  - intros (pre & c & post & -> & Hc). induction pre as [|a pre IH].
    + cbn [app].
      assert (match_here (ws_scheme ++ c :: post) = Some (ws_scheme ++ non_space_run (c :: post))) as Hm.
      { unfold match_here.
        assert (strip_prefix ws_scheme (ws_scheme ++ c :: post) = Some (c :: post)) as ->
          by by apply strip_prefix_Some.
        simpl. by rewrite Hc. }
      rewrite (ws_match_here _ _ Hm). eauto.
    + simpl. destruct (match_here _); [eauto | done].
Qed.

(** X1: the pattern matches a text exactly when the text contains [ws://]
    followed by a code unit that is not white space. *)
Theorem endpoint_found_iff_present s :
  is_Some (ws_match s)
  <-> exists pre c post, s = pre ++ ws_scheme ++ c :: post /\ is_space c = false.
Proof. apply ws_match_found. Qed.

(** X2: the match is [ws://] followed by the longest run of code units that
    are not white space (at least one), taken at the leftmost position
    where such a run starts: the text is [pre ++ match ++ post] where [post]
    is empty or begins with white space and no attempt anchored inside
    [pre] succeeds. *)
Theorem ws_match_spec s m :
  ws_match s = Some m
  <-> exists pre run post,
        s = pre ++ ws_scheme ++ run ++ post
        /\ m = ws_scheme ++ run
        /\ run ≠ []
        /\ Forall (fun c => is_space c = false) run
        /\ tail_is_cut post
        /\ forall k, (k < length pre)%nat -> match_here (drop k s) = None.
Proof.
  rewrite ws_match_Some. split.
  - intros (pre & rest & -> & Hm & Hleft).
    apply match_here_Some in Hm as (run & post & -> & -> & Hne & Hrun & Hpost).
    by exists pre, run, post.
  - intros (pre & run & post & -> & -> & Hne & Hrun & Hpost & Hleft).
    exists pre, (ws_scheme ++ run ++ post). split; [done|]. split; [|done].
    apply match_here_Some. by exists run, post.
Qed.

(** ** Endpoint discovery, outcome by outcome *)

Section DiscoveryExtras.
Import Discovery DiscoveryFacts.

Lemma written_app evs evs' : written (evs ++ evs') = written evs ++ written evs'.
Proof.
  induction evs as [|[chunk|e|c|] evs IH]; simpl; try done.
  by rewrite IH, app_assoc.
Qed.

(** What the first event after a quiet stretch does. *)
Lemma step_after_quiet pre ev :
  quiet pre ->
  promise (step (run pre init) ev)
  = match ev with
    | StderrData chunk =>
        match ws_match (written pre ++ chunk) with
        | Some m => Fulfilled m
        | None => Pending
        end
    | ChildError e => Rejected e
    | ChildExit (Some c) => Rejected (exit_error c)
    | ChildExit None => Pending
    | Deadline => Rejected timeout_error
    end.
Proof.
  intros Hq. rewrite (run_quiet_init _ Hq).
  destruct ev as [chunk|e|[c|]|]; try done.
  unfold step, on_data; simpl. by destruct (ws_match _).
Qed.

Lemma quiet_snoc pre ev :
  quiet pre -> promise (step (run pre init) ev) = Pending -> quiet (pre ++ [ev]).
Proof.
  intros Hq Hp. rewrite (step_after_quiet _ _ Hq) in Hp. destruct Hq as [Hs Hm].
  unfold quiet. rewrite forallb_app, written_app, Hs. simpl.
  destruct ev as [chunk|e|[c|]|]; try done; simpl.
  - rewrite app_nil_r. destruct (ws_match (written pre ++ chunk)); [done | by split].
  - rewrite app_nil_r. by split.
Qed.

(** Every history is quiet throughout, or has a first event that settles the
    promise. *)
Lemma first_decisive evs :
  quiet evs
  \/ exists pre ev post,
       evs = pre ++ ev :: post /\ quiet pre
       /\ promise (step (run pre init) ev) ≠ Pending.
Proof.
  induction evs as [|x evs IH] using rev_ind; [by left|].
  destruct IH as [Hq | (pre & ev & post & -> & Hq & Hp)].
  - destruct (promise (step (run evs init) x)) eqn:Hx.
    + left. by apply quiet_snoc.
    + right. exists evs, x, []. by rewrite Hx.
    + right. exists evs, x, []. by rewrite Hx.
  - right. exists pre, ev, (post ++ [x]). by rewrite <- app_assoc.
Qed.

Lemma awaited_quiet evs : quiet evs -> awaited evs = Rejected timeout_error.
Proof.
  intros Hq. unfold awaited. rewrite run_app. simpl.
  by rewrite (step_after_quiet _ Deadline Hq).
Qed.

Lemma awaited_decided pre ev post :
  quiet pre -> promise (step (run pre init) ev) ≠ Pending ->
  awaited (pre ++ ev :: post) = promise (step (run pre init) ev).
Proof. apply awaited_after_quiet. Qed.

(** How a fulfilled discovery came about. *)
Lemma awaited_Fulfilled evs m :
  awaited evs = Fulfilled m ->
  exists pre chunk post,
    evs = pre ++ StderrData chunk :: post /\ quiet pre
    /\ ws_match (written pre ++ chunk) = Some m.
Proof.
  intros Hm. destruct (first_decisive evs) as [Hq | (pre & ev & post & -> & Hq & Hp)].
  - rewrite (awaited_quiet _ Hq) in Hm. done.
  - rewrite (awaited_decided _ _ _ Hq Hp), (step_after_quiet _ _ Hq) in Hm.
    destruct ev as [chunk|e|[c|]|]; try done.
    exists pre, chunk, post. destruct (ws_match _); by simplify_eq.
Qed.


(** X4: every run of discovery ends in one of four ways, decided by the
    first event that is not quiet: a timeout when there is none or it is the
    deadline, the child's error, the early-exit error for an exit with a
    code, or the match of the text accumulated up to that chunk. *)
Theorem discovery_outcome evs :
  (quiet evs /\ awaited evs = Rejected timeout_error)
  \/ exists pre ev post,
       evs = pre ++ ev :: post /\ quiet pre
       /\ match ev with
          | StderrData chunk =>
              exists m, ws_match (written pre ++ chunk) = Some m
                        /\ awaited evs = Fulfilled m
          | ChildError e => awaited evs = Rejected e
          | ChildExit (Some c) => awaited evs = Rejected (exit_error c)
          | ChildExit None => False
          | Deadline => awaited evs = Rejected timeout_error
          end.
Proof.
  destruct (first_decisive evs) as [Hq | (pre & ev & post & -> & Hq & Hp)].
  - left. split; [done | by apply awaited_quiet].
  - right. exists pre, ev, post. split; [done|]. split; [done|].
    rewrite (awaited_decided _ _ _ Hq Hp).
    rewrite (step_after_quiet _ _ Hq) in *.
    destruct ev as [chunk|e|[c|]|]; try done.
    destruct (ws_match _) as [m|]; [eauto | done].
Qed.

(** X5: whenever discovery is fulfilled, the address is a prefix of the
    leftmost endpoint of the complete stderr text; what is missing, if
    anything, is a run of code units that are not white space. *)
Theorem resolved_address_is_prefix evs m :
  awaited evs = Fulfilled m ->
  exists ext, ws_match (written evs) = Some (m ++ ext)
    /\ Forall (fun c => is_space c = false) ext.
Proof.
  intros (pre & chunk & post & -> & Hq & Hm)%awaited_Fulfilled.
  rewrite written_app. simpl. rewrite app_assoc.
  by apply ws_match_app_longer.
Qed.

(** X6: when nothing but output (and exits without a code) is dispatched
    and the text written holds an endpoint, discovery is fulfilled. *)
Theorem output_with_endpoint_resolves evs :
  forallb silent evs = true -> is_Some (ws_match (written evs)) ->
  exists m, awaited evs = Fulfilled m.
Proof.
  intros Hs [m Hm].
  destruct (first_decisive evs) as [[_ Hq] | (pre & ev & post & -> & Hq & Hp)];
    [congruence|].
  rewrite (awaited_decided _ _ _ Hq Hp).
  rewrite forallb_app in Hs. apply andb_prop in Hs as [_ Hs]. simpl in Hs.
  apply andb_prop in Hs as [Hev _].
  rewrite (step_after_quiet _ _ Hq) in *.
  destruct ev as [chunk|e|[c|]|]; try done.
  destruct (ws_match (written pre ++ chunk)); [eauto | done].
Qed.

(** X7: when every stderr chunk ends with white space (whole lines), a
    fulfilled discovery has exactly the leftmost endpoint of the complete
    stderr text. *)
Theorem whole_lines_resolve_exactly evs m :
  (forall chunk, StderrData chunk ∈ evs ->
     exists c, last chunk = Some c /\ is_space c = true) ->
  awaited evs = Fulfilled m ->
  ws_match (written evs) = Some m.
Proof.
  intros Hlines (pre & chunk & post & -> & Hq & Hm)%awaited_Fulfilled.
  rewrite written_app. simpl. rewrite app_assoc.
  apply ws_match_app_closed; [done|].
  destruct (Hlines chunk) as (c & Hc & Hsp).
  { apply elem_of_app. right. left. }
  exists c. split; [|done]. by rewrite last_app, Hc.
Qed.

End DiscoveryExtras.

(** ** Calls, the registry and notifications *)

Section OrchestratorExtras.
Context {PausedEvent : Type}.
Implicit Types (w : @World PausedEvent) (env : Env) (a : StartSessionArgs).
Implicit Types (xs ys : list (@Action PausedEvent)) (n : @Notification PausedEvent).


Lemma connects_spec env a :
  connects env a = true
  <-> exists child url, spawned env a = inr child
        /\ Discovery.awaited (dispatched child) = Fulfilled url /\ CDP env url = None.
Proof.
  unfold connects. split.
  - destruct (spawned env a) as [|child]; [done|].
    destruct (Discovery.awaited _) as [|url|] eqn:Hd; try done.
    destruct (CDP env url) eqn:Hc; [done|]. intros _. by exists child, url.
  - intros (child & url & -> & -> & ->). done.
Qed.

Lemma succeeds_spec env a :
  succeeds env a = true <-> exists child url, Ready env a child url.
Proof.
  unfold succeeds, Ready. rewrite andb_true_iff, connects_spec. split.
  - intros [(child & url & Hs & Hd & Hc) He]. exists child, url.
    destruct (Debugger_enable env), (Runtime_enable env); done.
  - intros (child & url & Hs & Hd & Hc & -> & ->). eauto 10.
Qed.

(** What a call does to the sizes of the stores. *)
Lemma call_effect env a w :
  exists w' r, start_session env a w = Some (w', inr r)
    /\ length (clients w') = (length (clients w) + if connects env a then 1 else 0)%nat
    /\ length (session_objs w')
       = (length (session_objs w) + if succeeds env a then 1 else 0)%nat
    /\ length (map_objs w')
       = (length (map_objs w) + if succeeds env a then 1 else 0)%nat.
Proof.
  pose proof (DiscoveryFacts.awaited_settled) as Hsettled.
  unfold succeeds, connects, spawned, start_session, try_catch, bind, call_spawn,
    call_CDP, call_enable.
  destruct (spawn env _ _ _) as [e|child]; simpl;
    [eexists _, _; split; [reflexivity | simpl; lia]|].
  destruct (Discovery.awaited (dispatched child)) as [|url|e] eqn:Hd; simpl;
    [by destruct (Hsettled (dispatched child)) | |
     eexists _, _; split; [reflexivity | simpl; lia]].
  destruct (CDP env url); simpl;
    [eexists _, _; split; [reflexivity | simpl; lia]|].
  destruct (Debugger_enable env); simpl;
    [eexists _, _; split; [reflexivity | simpl; rewrite length_app; simpl; lia]|].
  destruct (Runtime_enable env); simpl;
    eexists _, _; (split; [reflexivity|]); simpl;
    rewrite ?length_alter, ?length_app; simpl; lia.
Qed.

(** *** Notifications, by the owner of the client *)

Lemma emit_frame c n w :
  sessions (emit c n w) = sessions w
  /\ map_objs (emit c n w) = map_objs w
  /\ clients (emit c n w) = clients w
  /\ length (session_objs (emit c n w)) = length (session_objs w).
Proof.
  unfold emit. destruct (clients w !! c) as [cl|]; [|done].
  generalize (handlers cl). intros hs. revert w.
  induction hs as [|h hs IH]; intros w; simpl; [done|].
  destruct (IH (if subscribed h.1 n then invoke h.2 n w else w)) as (-> & -> & -> & ->).
  destruct (subscribed _ _); [|done].
  destruct (snd h); simpl; by rewrite length_alter.
Qed.

Lemma emit_by_owner c n w :
  consistent w ->
  emit c n w
  = match owner w c, n with
    | Some s, DebuggerPaused event => assign_lastPaused s (Some event) w
    | Some s, DebuggerResumed => assign_lastPaused s None w
    | _, _ => w
    end.
Proof.
  intros (H1 & H2 & _). unfold emit, owner.
  destruct (clients w !! c) as [cl|] eqn:Hcl; [|done].
  destruct (handlers cl) as [|h hs] eqn:Hh; [done|].
  destruct (H2 c cl h Hcl) as (sess & Hs & Hc); [rewrite Hh; by left|].
  destruct (H1 _ _ Hs) as [_ (cl' & Hcl' & Hh')].
  rewrite Hc, Hcl in Hcl'. injection Hcl' as <-. rewrite Hh in Hh'.
  rewrite Hh'. by destruct n.
Qed.

Lemma owner_assign s v w c : owner (assign_lastPaused s v w) c = owner w c.
Proof. done. Qed.

Lemma owner_session w c s :
  consistent w -> owner w c = Some s ->
  exists sess, session_objs w !! s = Some sess /\ client sess = c.
Proof.
  intros (_ & H2 & _). unfold owner.
  destruct (clients w !! c) as [cl|] eqn:Hcl; [|done].
  destruct (handlers cl) as [|h hs] eqn:Hh; [done|]. intros [= <-].
  apply (H2 c cl h Hcl). rewrite Hh. by left.
Qed.

Lemma session_owner w s sess :
  consistent w -> session_objs w !! s = Some sess -> owner w (client sess) = Some s.
Proof.
  intros (H1 & _ & _) Hs. destruct (H1 _ _ Hs) as [_ (cl & Hcl & Hh)].
  unfold owner. by rewrite Hcl, Hh.
Qed.

Lemma assign_assign s v v' w :
  assign_lastPaused s v (assign_lastPaused s v' w) = assign_lastPaused s v w.
Proof.
  unfold assign_lastPaused. simpl. f_equal.
  rewrite list_alter_alter_eq. by apply list_alter_ext.
Qed.

Lemma assign_commute s1 s2 v1 v2 w :
  s1 ≠ s2 ->
  assign_lastPaused s1 v1 (assign_lastPaused s2 v2 w)
  = assign_lastPaused s2 v2 (assign_lastPaused s1 v1 w).
Proof.
  intros Hne. unfold assign_lastPaused. simpl. f_equal.
  by apply list_alter_alter_ne.
Qed.

(** *** More that every history keeps *)

Lemma tidy_empty : tidy (@empty_world PausedEvent).
Proof.
  unfold tidy. simpl. repeat split; intros *; rewrite ?lookup_nil, ?lookup_empty; done.
Qed.

Lemma tidy_assign s v w : tidy w -> tidy (assign_lastPaused s v w).
Proof.
  intros (T1 & T2 & T3 & T4 & T5). unfold tidy. simpl. rewrite length_alter.
  split; [done|]. split; [|split; [done|split; [done|]]].
  - intros j sess' Hj. rewrite list_lookup_alter in Hj.
    destruct (decide (s = j)) as [->|]; [|by apply T2].
    destruct (session_objs w !! j) as [sess|] eqn:E; [|done].
    injection Hj as <-. exact (T2 _ _ E).
  - intros k j Hk. destruct (T5 k j Hk) as (sess & Hs & Hid).
    rewrite list_lookup_alter. destruct (decide (s = j)) as [->|]; [|eauto].
    rewrite Hs. simpl. eauto.
Qed.

Lemma tidy_emit c n w : tidy w -> tidy (emit c n w).
Proof.
  intros Hw. unfold emit. destruct (clients w !! c) as [cl|]; [|done].
  generalize (handlers cl). intros hs. revert w Hw.
  induction hs as [|h hs IH]; intros w Hw; simpl; [done|].
  apply IH. destruct (subscribed _ _); [|done].
  destruct (snd h); simpl; by apply tidy_assign.
Qed.

Lemma tidy_call env a w w' r :
  tidy w -> start_session env a w = Some (w', r) -> tidy w'.
Proof.
  intros (T1 & T2 & T3 & T4 & T5) Hcall.
  destruct (stages_decided env a) as [[e He] | (child & url & Hr)].
  - destruct (start_session_failure env a e w He) as (w'' & Hw & Hs & Ho & Hm & Hc).
    rewrite Hw in Hcall. injection Hcall as <- _.
    unfold tidy. rewrite Hs, Ho, Hm. repeat split; try done.
    intros c cl Hcl. destruct Hc as [Hc | [u Hc]]; rewrite Hc in Hcl; [eauto|].
    apply lookup_snoc_Some in Hcl as [[_ Hcl] | [_ <-]]; [eauto | done].
  - rewrite (start_session_ok _ _ _ _ w Hr) in Hcall. injection Hcall as <- _.
    unfold tidy. simpl. rewrite !length_app. simpl.
    split; [lia|]. split; [|split; [|split]].
    + intros s sess [[_ Hs] | [-> <-]]%lookup_snoc_Some; [eauto | done].
    + intros m bps [[_ Hm] | [_ <-]]%lookup_snoc_Some; [eauto | done].
    + intros c cl [[_ Hc] | [_ <-]]%lookup_snoc_Some; [eauto | done].
    + intros k s Hk. destruct (decide (generateSessionId env = k)) as [Heq|Hne].
      * subst k. rewrite lookup_insert_eq in Hk. injection Hk as <-.
        eexists. split; [by apply list_lookup_middle | done].
      * rewrite lookup_insert_ne in Hk by done.
        destruct (T5 k s Hk) as (sess & Hs & Hid). exists sess.
        split; [by apply lookup_app_l_Some | done].
Qed.

Lemma tidy_history xs w : tidy w -> tidy (history xs w).
Proof.
  revert w. induction xs as [|x xs IH]; intros w Hw; [done|].
  apply IH. destruct x as [env a | c n]; simpl; [|by apply tidy_emit].
  destruct (start_session env a w) as [[w' r]|] eqn:Hcall; [|done].
  by eapply tidy_call.
Qed.

Lemma calls_where_snoc f (xs : list (@Action PausedEvent)) x :
  calls_where f (xs ++ [x])
  = (calls_where f xs
     + match x with Call env a => if f env a then 1 else 0 | Notify _ _ => 0 end)%nat.
Proof.
  induction xs as [|[env a | c n] xs IH]; simpl.
  - destruct x; simpl; lia.
  - rewrite IH. lia.
  - done.
Qed.

Lemma registry_kept_by_act w x k :
  is_Some (sessions w !! k) -> is_Some (sessions (act w x) !! k).
Proof.
  intros Hk. destruct x as [env a | c n]; simpl.
  - destruct (stages_decided env a) as [[e He] | (child & url & Hr)].
    + destruct (start_session_failure env a e w He) as (w' & -> & -> & _). done.
    + rewrite (start_session_ok _ _ _ _ w Hr). simpl.
      rewrite lookup_insert. by case_decide.
  - by destruct (emit_frame c n w) as (-> & _).
Qed.


Lemma owner_emit c n w c' : owner (emit c n w) c' = owner w c'.
Proof. unfold owner. by destruct (emit_frame c n w) as (_ & _ & -> & _). Qed.


Lemma start_session_rejected env a child e w :
  spawned env a = inr child ->
  Discovery.awaited (dispatched child) = Rejected e ->
  start_session env a w = Some (w, inr (failure e)).
Proof.
  unfold spawned, start_session, try_catch, bind, call_spawn.
  intros -> Hd. simpl. by rewrite Hd.
Qed.

(** X8: when discovery fails, the caller gets the failing condition in the
    message and the stores are untouched: after a quiet stretch, an error
    event gives that error's message, an exit with a code gives
    [Process exited with code <code> before inspector URL was found], and
    the deadline gives [Timeout waiting for inspector WebSocket URL], each
    after [Failed to start debug session: ]. *)
Theorem discovery_failure_messages env a w child pre post :
  spawned env a = inr child ->
  Discovery.quiet pre ->
  (forall e,
     dispatched child = pre ++ Discovery.ChildError e :: post ->
     start_session env a w
     = Some (w, inr {| isError := true;
                       content := [Message (js "Failed to start debug session: "
                                            ++ describe e)] |}))
  /\ (forall code,
        dispatched child = pre ++ Discovery.ChildExit (Some code) :: post ->
        start_session env a w
        = Some (w, inr {| isError := true;
                          content :=
                            [Message
                               (js "Failed to start debug session: Process exited with code "
                                ++ dec code ++ js " before inspector URL was found")] |}))
  /\ (dispatched child = pre ++ Discovery.Deadline :: post \/ dispatched child = pre ->
      start_session env a w
      = Some (w, inr {| isError := true;
                        content :=
                          [Message
                             (js "Failed to start debug session: Timeout waiting for inspector WebSocket URL")] |})).
Proof.
  intros Hs Hq. split; [|split].
  - intros e Hd. apply (start_session_rejected _ _ _ _ _ Hs). rewrite Hd.
    rewrite awaited_decided; rewrite ?(step_after_quiet _ _ Hq); done.
  - intros code Hd.
    rewrite (start_session_rejected _ _ child (Discovery.exit_error code) _ Hs); [done|].
    rewrite Hd. rewrite awaited_decided; rewrite ?(step_after_quiet _ _ Hq); done.
  - intros Hd.
    rewrite (start_session_rejected _ _ child Discovery.timeout_error _ Hs); [done|].
    destruct Hd as [-> | ->]; [|by apply awaited_quiet].
    rewrite awaited_decided; rewrite ?(step_after_quiet _ _ Hq); done.
Qed.

(** *** Further properties of calls and notifications *)


(** X10: the result of a call does not depend on the sessions, maps and
    clients that exist when it is made. *)
Theorem call_result_ignores_history env a w1 w2 :
  snd <$> start_session env a w1 = snd <$> start_session env a w2.
Proof.
  destruct (stages_decided env a) as [[e He] | (child & url & Hr)].
  - destruct (start_session_failure env a e w1 He) as (w1' & -> & _).
    destruct (start_session_failure env a e w2 He) as (w2' & -> & _). done.
  - by rewrite !(start_session_ok _ _ _ _ _ Hr).
Qed.

(** X12: after any history, every entry of the registry leads to a session
    object whose [id] is the entry's key. *)
Theorem registry_keyed_by_id xs k s :
  sessions (history xs empty_world) !! k = Some s ->
  exists sess, session_objs (history xs empty_world) !! s = Some sess /\ id sess = k.
Proof.
  pose proof (tidy_history xs _ tidy_empty) as (_ & _ & _ & _ & T5). apply T5.
Qed.

(** X14: after any history, two different session objects have different
    clients and different breakpoints maps. *)
Theorem sessions_isolated xs s1 s2 sess1 sess2 :
  session_objs (history xs empty_world) !! s1 = Some sess1 ->
  session_objs (history xs empty_world) !! s2 = Some sess2 ->
  s1 ≠ s2 ->
  client sess1 ≠ client sess2 /\ breakpoints sess1 ≠ breakpoints sess2.
Proof.
  intros H1 H2 Hne.
  pose proof (consistent_history xs _ consistent_empty) as Hc.
  pose proof (tidy_history xs _ tidy_empty) as (_ & T2 & _).
  split.
  - intros Heq. apply Hne.
    pose proof (session_owner _ _ _ Hc H1) as Ho1.
    pose proof (session_owner _ _ _ Hc H2) as Ho2. congruence.
  - rewrite (T2 _ _ H1), (T2 _ _ H2). done.
Qed.

(** X15: after any history, every session's breakpoints map exists and is
    empty: nothing ever adds a breakpoint. *)
Theorem breakpoints_stay_empty xs s sess :
  session_objs (history xs empty_world) !! s = Some sess ->
  map_objs (history xs empty_world) !! breakpoints sess = Some ∅.
Proof.
  intros Hs. pose proof (tidy_history xs _ tidy_empty) as (T1 & T2 & T3 & _).
  rewrite (T2 _ _ Hs). apply lookup_lt_Some in Hs. rewrite <- T1 in Hs.
  apply lookup_lt_is_Some in Hs as [bps Hb]. by rewrite Hb, (T3 _ _ Hb).
Qed.

(** X13: a key of the registry stays a key of the registry, whatever
    calls and notifications follow: no session is ever removed. *)
Theorem registry_only_grows ys w k :
  is_Some (sessions w !! k) -> is_Some (sessions (history ys w) !! k).
Proof.
  revert w. induction ys as [|y ys IH]; intros w Hk; [done|].
  apply IH. by apply registry_kept_by_act.
Qed.

(** X16: whatever calls and notifications follow, a session object stays
    where it is, with the [id], [wsUrl], [client], [process] and
    [breakpoints] it was created with. *)
Theorem session_fields_fixed xs ys s sess :
  session_objs (history xs empty_world) !! s = Some sess ->
  exists sess',
    session_objs (history ys (history xs empty_world)) !! s = Some sess'
    /\ id sess' = id sess /\ wsUrl sess' = wsUrl sess /\ client sess' = client sess
    /\ process sess' = process sess /\ breakpoints sess' = breakpoints sess.
Proof.
  intros Hs. pose proof (consistent_history xs _ consistent_empty) as Hc.
  rewrite (snapshot_after ys _ _ _ Hc Hs). eexists. split; [reflexivity|]. done.
Qed.

(** X11: after any history, there are as many session objects, and as many
    maps, as calls that passed every stage, and as many clients as calls
    that got a connection; every client is still open. *)
Theorem store_sizes xs :
  length (session_objs (history xs empty_world)) = calls_where succeeds xs
  /\ length (map_objs (history xs empty_world)) = calls_where succeeds xs
  /\ length (clients (history xs empty_world)) = calls_where connects xs
  /\ (forall c cl, clients (history xs empty_world) !! c = Some cl -> open cl = true).
Proof.
  split; [|split; [|split]].
  4: { by pose proof (tidy_history xs _ tidy_empty) as (_ & _ & _ & T4 & _). }
  all: induction xs as [|x xs IH] using rev_ind; [done|];
    unfold history in *; rewrite foldl_snoc, calls_where_snoc;
    destruct x as [env a | c n]; simpl.
  all: try (destruct (call_effect env a (foldl act empty_world xs))
              as (w' & r & -> & Hcl & Hso & Hmo); lia).
  all: destruct (emit_frame c n (foldl act empty_world xs)) as (_ & Hm & Hc & Hs);
    rewrite ?Hm, ?Hc, ?Hs; lia.
Qed.

(** X17: a notification changes nothing at all when it arrives on a client
    that no session uses (one left behind by a failed call, or none), or
    when it is neither a pause nor a resume. *)
Theorem unheard_notification_changes_nothing xs c n :
  (forall s sess, session_objs (history xs empty_world) !! s = Some sess ->
                  client sess ≠ c)
  \/ pause_or_resume n = false ->
  emit c n (history xs empty_world) = history xs empty_world.
Proof.
  intros Hn. pose proof (consistent_history xs _ consistent_empty) as Hc.
  rewrite (emit_by_owner _ _ _ Hc).
  destruct (owner _ c) as [s|] eqn:Ho; [|done].
  destruct Hn as [Hn | Hn]; [|by destruct n].
  destruct (owner_session _ _ _ Hc Ho) as (sess & Hs & Hcl).
  by destruct (Hn _ _ Hs).
Qed.

(** X18: delivering a notification twice in a row leaves the same state as
    delivering it once. *)
Theorem notification_idempotent xs c n :
  emit c n (emit c n (history xs empty_world)) = emit c n (history xs empty_world).
Proof.
  pose proof (consistent_history xs _ consistent_empty) as Hc.
  rewrite (emit_by_owner c n (emit _ _ _)) by by apply consistent_emit.
  rewrite owner_emit, (emit_by_owner _ _ _ Hc).
  destruct (owner _ c) as [s|]; [|done].
  destruct n; simpl; by rewrite ?assign_assign.
Qed.

(** X19: notifications on two different clients can be delivered in either
    order with the same result. *)
Theorem notifications_on_two_clients_commute xs c1 n1 c2 n2 :
  c1 ≠ c2 ->
  emit c1 n1 (emit c2 n2 (history xs empty_world))
  = emit c2 n2 (emit c1 n1 (history xs empty_world)).
Proof.
  intros Hne. pose proof (consistent_history xs _ consistent_empty) as Hc.
  rewrite (emit_by_owner c1 n1 (emit _ _ _)) by by apply consistent_emit.
  rewrite (emit_by_owner c2 n2 (emit _ _ _)) by by apply consistent_emit.
  rewrite !owner_emit, !(emit_by_owner _ _ _ Hc).
  destruct (owner _ c1) as [s1|] eqn:Ho1; [|done].
  destruct (owner _ c2) as [s2|] eqn:Ho2; [|by destruct n1].
  assert (s1 ≠ s2) as Hs.
  { intros ->. destruct (owner_session _ _ _ Hc Ho1) as (sess1 & Hs1 & Hc1).
    destruct (owner_session _ _ _ Hc Ho2) as (sess2 & Hs2 & Hc2). congruence. }
  destruct n1, n2; simpl; try done; by apply assign_commute.
Qed.

End OrchestratorExtras.

(** ** The shape of identifiers *)

Lemma digit36_range d :
  (48 <= digit36 d <= 57 \/ 97 <= digit36 d <= 122)%N.
Proof.
  unfold digit36. cbv zeta.
  pose proof (N.mod_upper_bound d 36) as Hk. generalize dependent (d mod 36)%N.
  intros k Hk. destruct (N.ltb_spec k 10); lia.
Qed.

(** X20: the random part of an identifier has as many characters as the draw
    has digits in radix 36, up to seven (none when the draw is zero), and
    each is a digit or a lower-case letter. *)
Theorem random_suffix_shape env :
  length (random_suffix env) = Nat.min 7 (length (Math_random env))
  /\ Forall (fun c => (48 <= c <= 57 \/ 97 <= c <= 122)%N) (random_suffix env).
Proof.
  unfold random_suffix, substring, toString36.
  destruct (Math_random env) as [|d ds]; [by vm_compute|].
  change (js "0." ++ map digit36 (d :: ds))
    with (48 :: 46 :: map digit36 (d :: ds))%N.
  cbn [drop]. rewrite drop_0. split.
  - rewrite length_take, List.length_map. done.
  - apply Forall_take. apply List.Forall_map. apply Forall_forall.
    intros k _. apply digit36_range.
Qed.

(** ** The test helper against the tool *)

Section TestHelperFacts.

Lemma helper_core_run evs st :
  Discovery.sound (TestHelper.core st) ->
  TestHelper.core (TestHelper.run evs st)
  = Discovery.run (omap TestHelper.to_tool evs) (TestHelper.core st).
Proof.
  revert st. induction evs as [|ev evs IH]; intros st Hs; [done|].
  assert (TestHelper.core (TestHelper.step st ev)
          = match TestHelper.to_tool ev with
            | Some ev' => Discovery.step (TestHelper.core st) ev'
            | None => TestHelper.core st
            end) as Hstep.
  { destruct ev; simpl; unfold Discovery.step;
      rewrite ?(DiscoveryFacts.sound_fires _ _ Hs); try done.
    by destruct (Discovery.timeout (TestHelper.core st)). }
  simpl. rewrite IH.
  - rewrite Hstep. by destruct (TestHelper.to_tool ev).
  - rewrite Hstep.
    destruct (TestHelper.to_tool ev); [by apply DiscoveryFacts.sound_step | done].
Qed.

Lemma helper_awaited evs :
  TestHelper.awaited evs = Discovery.awaited (omap TestHelper.to_tool evs).
Proof.
  unfold TestHelper.awaited, TestHelper.final, Discovery.awaited.
  rewrite helper_core_run by apply DiscoveryFacts.sound_init.
  by rewrite omap_app.
Qed.

Lemma helper_killed_run evs st :
  Discovery.sound (TestHelper.core st) ->
  (TestHelper.killed st = true ->
   Discovery.promise (TestHelper.core st) = Rejected Discovery.timeout_error) ->
  TestHelper.killed (TestHelper.run evs st) = true ->
  Discovery.promise (TestHelper.core (TestHelper.run evs st))
  = Rejected Discovery.timeout_error.
Proof.
  revert st. induction evs as [|ev evs IH]; intros st Hs Hk; [done|].
  simpl. apply IH.
  - pose proof (helper_core_run [ev] st Hs) as Hc. simpl in Hc. rewrite Hc.
    destruct (TestHelper.to_tool ev); [by apply DiscoveryFacts.sound_step | done].
  - destruct Hs as [_ [Ht _]].
    destruct ev; simpl; try (intros Hk'; specialize (Hk Hk'));
      unfold Discovery.on_data, Discovery.on_error, Discovery.on_exit; simpl;
      try destruct (ws_match _); try destruct code; simpl; rewrite ?Hk; try done.
    destruct (Discovery.timeout (TestHelper.core st)) eqn:Hto; [|done].
    simpl. by rewrite (Ht eq_refl).
Qed.

(** X21: on the same events, the helper's discovery settles exactly as the
    tool's does (events on stdout, which only the helper listens to, make no
    difference), and it has accumulated the same stderr text. *)
Theorem helper_discovery_agrees evs :
  TestHelper.awaited evs = Discovery.awaited (omap TestHelper.to_tool evs)
  /\ Discovery.stderr (TestHelper.core (TestHelper.run evs TestHelper.init))
     = Discovery.output (omap TestHelper.to_tool evs).
Proof.
  split; [apply helper_awaited|].
  unfold Discovery.output. by rewrite helper_core_run by apply DiscoveryFacts.sound_init.
Qed.

(** X22: the helper calls [child.kill()] only when its discovery times out,
    and it does so whenever the events are quiet up to the deadline. *)
Theorem helper_kills_only_on_timeout evs :
  (TestHelper.killed (TestHelper.final evs) = true ->
   TestHelper.awaited evs = Rejected Discovery.timeout_error)
  /\ (Discovery.quiet (omap TestHelper.to_tool evs) ->
      TestHelper.killed (TestHelper.final evs) = true).
Proof.
  split.
  - apply helper_killed_run; [apply DiscoveryFacts.sound_init | done].
  - intros Hq. unfold TestHelper.final, TestHelper.run. rewrite foldl_snoc. simpl.
    fold (TestHelper.run evs TestHelper.init).
    rewrite helper_core_run by apply DiscoveryFacts.sound_init.
    simpl. by rewrite (DiscoveryFacts.run_quiet_init _ Hq).
Qed.

(** X23: for a runner the tool's schema allows (or none given, which is
    [node]), the helper asks [spawn] for the same command, arguments and
    working directory as the tool does for the corresponding request; any
    other runner string is run as [node]. *)
Theorem helper_command_agrees env p :
  (forall r, TestHelper.runner_of p = TestHelper.runner_name r ->
     TestHelper.nodeCmd p = nodeCmd (TestHelper.as_args p r)
     /\ TestHelper.nodeArgs p = nodeArgs (TestHelper.as_args p r)
     /\ TestHelper.spawn_cwd env p = spawn_cwd env (TestHelper.as_args p r))
  /\ ((forall r, TestHelper.runner_of p ≠ TestHelper.runner_name r) ->
      TestHelper.nodeCmd p = nodeCmd (TestHelper.as_args p node)
      /\ TestHelper.nodeArgs p = nodeArgs (TestHelper.as_args p node)).
Proof.
  unfold TestHelper.nodeCmd, TestHelper.nodeArgs, nodeCmd, nodeArgs. split.
  - intros r ->. by destruct r.
  - intros Hr. pose proof (Hr tsx) as H1. pose proof (Hr ts_node) as H2.
    simpl in H1, H2. by rewrite !bool_decide_eq_false_2.
Qed.

(** X24: when the helper and the tool get the same child (same pid, same
    events but for stdout) and every stage of the tool's call succeeds, the
    helper remembers the child and returns the session id, endpoint, pid,
    runner name and entry that the tool reports. *)
Theorem helper_result_matches_tool env helper_spawn p r alive child child' url :
  TestHelper.runner_of p = TestHelper.runner_name r ->
  Ready env (TestHelper.as_args p r) child url ->
  helper_spawn (TestHelper.nodeCmd p) (TestHelper.nodeArgs p) (TestHelper.spawn_cwd env p)
  = inr child' ->
  omap TestHelper.to_tool (TestHelper.dispatched child') = dispatched child ->
  TestHelper.pid child' = pid child ->
  TestHelper.testStartSession env helper_spawn p alive
  = Some (alive ++ [child'],
          inr {| TestHelper.r_sessionId := generateSessionId env;
                 TestHelper.r_wsUrl := url;
                 TestHelper.r_pid := pid child;
                 TestHelper.r_runner := TestHelper.runner_name r;
                 TestHelper.r_entry := entry (TestHelper.as_args p r) |}).
Proof.
  intros Hr (_ & Hd & _) Hs Hev Hpid. unfold TestHelper.testStartSession.
  by rewrite Hs, helper_awaited, Hev, Hd, Hpid, Hr.
Qed.

End TestHelperFacts.

(** ** The further properties at the scenarios *)


Lemma resolved_address_is_prefix_witness :
  let evs := [Discovery.StderrData (js "Debugger listening on ws://127.0.0.1:92");
              Discovery.StderrData (js "29/0f2c
")] in
  Discovery.awaited evs = Fulfilled (js "ws://127.0.0.1:92")
  /\ exists ext, ws_match (Discovery.written evs) = Some (js "ws://127.0.0.1:92" ++ ext)
       /\ Forall (fun c => is_space c = false) ext.
Proof.
  intros evs.
  assert (Discovery.awaited evs = Fulfilled (js "ws://127.0.0.1:92")) as Ha
    by (vm_compute; reflexivity).
  split; [exact Ha|]. exact (resolved_address_is_prefix evs _ Ha).
Defined.

Lemma output_with_endpoint_resolves_witness :
  let evs := [Discovery.StderrData (js "listening on ws://h:1/x"); Discovery.ChildExit None] in
  (forallb Discovery.silent evs = true /\ is_Some (ws_match (Discovery.written evs)))
  /\ exists m, Discovery.awaited evs = Fulfilled m.
Proof.
  intros evs.
  assert (forallb Discovery.silent evs = true) as Hs by (vm_compute; reflexivity).
  assert (is_Some (ws_match (Discovery.written evs))) as Hm
    by (exists (js "ws://h:1/x"); vm_compute; reflexivity).
  split; [split; [exact Hs | exact Hm]|].
  exact (output_with_endpoint_resolves evs Hs Hm).
Defined.

Lemma whole_lines_resolve_exactly_witness :
  let evs := [Discovery.StderrData inspector_banner] in
  ((forall chunk, Discovery.StderrData chunk ∈ evs ->
      exists c, last chunk = Some c /\ is_space c = true)
   /\ Discovery.awaited evs = Fulfilled inspector_url)
  /\ ws_match (Discovery.written evs) = Some inspector_url.
Proof.
  intros evs.
  assert (forall chunk, Discovery.StderrData chunk ∈ evs ->
            exists c, last chunk = Some c /\ is_space c = true) as Hl.
  { intros chunk Hin. apply list_elem_of_singleton in Hin. injection Hin as ->.
    exists 10%N. split; vm_compute; reflexivity. }
  assert (Discovery.awaited evs = Fulfilled inspector_url) as Ha
    by (vm_compute; reflexivity).
  split; [split; [exact Hl | exact Ha]|].
  exact (whole_lines_resolve_exactly evs _ Hl Ha).
Defined.

Lemma discovery_failure_messages_witness :
  let pre := [Discovery.StderrData (js "node: bad option: --inspect-brk")] in
  let child := {| pid := Some 31337;
                  dispatched := pre ++ [Discovery.ChildExit (Some 9)] |} in
  let env := {| process_pid := 4242; process_cwd := js "/srv/debuggee";
                Date_now := 1700000000123; Math_random := [10; 11; 3]%N;
                spawn := fun _ _ _ => inr child; CDP := fun _ => None;
                Debugger_enable := None; Runtime_enable := None |} in
  (spawned env script_args = inr child /\ Discovery.quiet pre)
  /\ start_session (PausedEvent := JSString) env script_args empty_world
     = Some (empty_world,
             inr {| isError := true;
                    content :=
                      [Message
                         (js "Failed to start debug session: Process exited with code "
                          ++ dec 9 ++ js " before inspector URL was found")] |}).
Proof.
  intros pre child env.
  assert (spawned env script_args = inr child) as Hs by reflexivity.
  assert (Discovery.quiet pre) as Hq by (split; vm_compute; reflexivity).
  split; [split; [exact Hs | exact Hq]|].
  destruct (discovery_failure_messages (PausedEvent := JSString)
              env script_args empty_world child pre [] Hs Hq) as (_ & Hexit & _).
  exact (Hexit 9 eq_refl).
Defined.

Lemma registry_keyed_by_id_witness :
  let xs := [Call (PausedEvent := JSString)
               (healthy_env 1700000000123 [10; 11; 3]%N) script_args] in
  sessions (history xs empty_world) !! js "4242-1700000000123-ab3" = Some 0%nat
  /\ exists sess, session_objs (history xs empty_world) !! 0%nat = Some sess
       /\ id sess = js "4242-1700000000123-ab3".
Proof.
  intros xs.
  assert (sessions (history xs empty_world) !! js "4242-1700000000123-ab3" = Some 0%nat)
    as Hk by (vm_compute; reflexivity).
  split; [exact Hk|]. exact (registry_keyed_by_id xs _ _ Hk).
Defined.

Lemma registry_only_grows_witness :
  let w := history (PausedEvent := JSString)
             [Call (healthy_env 1700000000123 [10; 11; 3]%N) script_args] empty_world in
  let ys := [Notify 0 DebuggerResumed;
             Call (healthy_env 1700000000999 [1; 2]%N) script_args;
             Call refusing_env script_args] in
  is_Some (sessions w !! js "4242-1700000000123-ab3")
  /\ is_Some (sessions (history ys w) !! js "4242-1700000000123-ab3").
Proof.
  intros w ys.
  assert (is_Some (sessions w !! js "4242-1700000000123-ab3")) as Hk
    by (exists 0%nat; vm_compute; reflexivity).
  split; [exact Hk|]. exact (registry_only_grows ys w _ Hk).
Defined.

Lemma sessions_isolated_witness :
  let xs := [Call (PausedEvent := JSString)
               (healthy_env 1700000000123 [10; 11; 3]%N) script_args;
             Call refusing_env script_args;
             Call (healthy_env 1700000000999 [1; 2]%N) script_args] in
  exists sess1 sess2,
    (session_objs (history xs empty_world) !! 0%nat = Some sess1
     /\ session_objs (history xs empty_world) !! 1%nat = Some sess2
     /\ 0%nat ≠ 1%nat)
    /\ client sess1 ≠ client sess2 /\ breakpoints sess1 ≠ breakpoints sess2.
Proof.
  intros xs. eexists _, _.
  assert (0%nat ≠ 1%nat) as Hne by discriminate.
  split; [split; [vm_compute; reflexivity | split; [vm_compute; reflexivity | exact Hne]]|].
  apply (sessions_isolated xs 0 1); [vm_compute; reflexivity.. | exact Hne].
Defined.

Lemma breakpoints_stay_empty_witness :
  let xs := [Call (PausedEvent := JSString)
               (healthy_env 1700000000123 [10; 11; 3]%N) script_args;
             Notify 0 (DebuggerPaused (js "Break on start"))] in
  exists sess,
    session_objs (history xs empty_world) !! 0%nat = Some sess
    /\ map_objs (history xs empty_world) !! breakpoints sess = Some ∅.
Proof.
  intros xs. eexists. split; [vm_compute; reflexivity|].
  apply (breakpoints_stay_empty xs 0). vm_compute. reflexivity.
Defined.

Lemma session_fields_fixed_witness :
  let xs := [Call (PausedEvent := JSString)
               (healthy_env 1700000000123 [10; 11; 3]%N) script_args] in
  let ys := [Notify 0 (DebuggerPaused (js "Break on start"));
             Call (healthy_env 1700000000123 [10; 11; 3]%N) script_args] in
  exists sess,
    session_objs (history xs empty_world) !! 0%nat = Some sess
    /\ exists sess',
         session_objs (history ys (history xs empty_world)) !! 0%nat = Some sess'
         /\ id sess' = id sess /\ wsUrl sess' = wsUrl sess /\ client sess' = client sess
         /\ process sess' = process sess /\ breakpoints sess' = breakpoints sess.
Proof.
  intros xs ys. eexists. split; [vm_compute; reflexivity|].
  apply (session_fields_fixed xs ys 0). vm_compute. reflexivity.
Defined.

Lemma unheard_notification_changes_nothing_witness :
  let xs := [Call (PausedEvent := JSString) refusing_env script_args] in
  let n := DebuggerPaused (js "Break on start") in
  ((forall s sess, session_objs (history xs empty_world) !! s = Some sess ->
                   client sess ≠ 0%nat)
   \/ pause_or_resume n = false)
  /\ length (clients (history xs empty_world)) = 1%nat
  /\ emit 0 n (history xs empty_world) = history xs empty_world.
Proof.
  intros xs n.
  assert ((forall s sess, session_objs (history xs empty_world) !! s = Some sess ->
                          client sess ≠ 0%nat)
          \/ pause_or_resume n = false) as Hn.
  { left. intros s sess Hs. exfalso. revert Hs. vm_compute. discriminate. }
  split; [exact Hn|]. split; [vm_compute; reflexivity|].
  exact (unheard_notification_changes_nothing xs 0 n Hn).
Defined.

Lemma notifications_on_two_clients_commute_witness :
  let xs := [Call (PausedEvent := JSString)
               (healthy_env 1700000000123 [10; 11; 3]%N) script_args;
             Call (healthy_env 1700000000999 [1; 2]%N) script_args] in
  0%nat ≠ 1%nat
  /\ emit 0 (DebuggerPaused (js "breakpoint")) (emit 1 DebuggerResumed (history xs empty_world))
     = emit 1 DebuggerResumed (emit 0 (DebuggerPaused (js "breakpoint")) (history xs empty_world)).
Proof.
  intros xs. assert (0%nat ≠ 1%nat) as Hne by discriminate.
  split; [exact Hne|].
  exact (notifications_on_two_clients_commute xs 0 _ 1 _ Hne).
Defined.

Lemma helper_result_matches_tool_witness :
  let env := healthy_env 1700000000123 [10; 11; 3]%N in
  let p := {| TestHelper.p_entry := js "script.js"; TestHelper.p_runner := None;
              TestHelper.p_inspectBrk := None; TestHelper.p_args := None;
              TestHelper.p_cwd := None |} in
  let child' := {| TestHelper.pid := Some 31337;
                   TestHelper.dispatched :=
                     [TestHelper.StdoutData (js "starting");
                      TestHelper.StderrData inspector_banner] |} in
  (TestHelper.runner_of p = TestHelper.runner_name node
   /\ Ready env (TestHelper.as_args p node) listening_child inspector_url
   /\ omap TestHelper.to_tool (TestHelper.dispatched child') = dispatched listening_child
   /\ TestHelper.pid child' = pid listening_child)
  /\ TestHelper.testStartSession env (fun _ _ _ => inr child') p []
     = Some ([child'],
             inr {| TestHelper.r_sessionId := js "4242-1700000000123-ab3";
                    TestHelper.r_wsUrl := inspector_url;
                    TestHelper.r_pid := Some 31337;
                    TestHelper.r_runner := js "node";
                    TestHelper.r_entry := js "script.js" |}).
Proof.
  intros env p child'.
  assert (TestHelper.runner_of p = TestHelper.runner_name node) as Hr by reflexivity.
  assert (Ready env (TestHelper.as_args p node) listening_child inspector_url) as Hready
    by (repeat split; vm_compute; reflexivity).
  assert (omap TestHelper.to_tool (TestHelper.dispatched child') = dispatched listening_child)
    as Hev by reflexivity.
  assert (TestHelper.pid child' = pid listening_child) as Hpid by reflexivity.
  split; [repeat split; assumption|].
  exact (helper_result_matches_tool env (fun _ _ _ => inr child') p node []
           listening_child child' inspector_url Hr Hready eq_refl Hev Hpid).
Defined.
